(** * Chat input surface, floating launcher labels and chat font size

    A shallow embedding of the event handlers of [ChatInput]
    (image ingestion, submit, dropdown keyboard handling, per-agent
    reset, drag feedback, command hints, draft restore, send icon,
    textarea height), of the [instanceLabels] computation of the
    floating launcher
    and of [parseChatFontSize], with the properties proved about them. *)

From Stdlib Require Import ZArith NArith List Ascii String Bool Lia.
From Stdlib Require Import Floats.SpecFloat.
From Stdlib Require DecimalNat.
From stdpp Require Import base decidable option list gmap strings.

Set Default Proof Using "Type".

(** ** JavaScript strings

    A JavaScript string is a sequence of UTF-16 code units. *)

Module JsString.

Abbreviation t := (list N).

(** The string written by an ASCII literal. *)
Definition js (s : string) : t :=
  map N_of_ascii (list_ascii_of_string s).

(** ECMAScript WhiteSpace and LineTerminator code points: what
    [String.prototype.trim] strips. *)
Definition is_white_space (c : N) : bool :=
  ((c =? 0x9) || (c =? 0xB) || (c =? 0xC) || (c =? 0x20) || (c =? 0xA0)
   || (c =? 0xFEFF) || (c =? 0x1680) || ((0x2000 <=? c) && (c <=? 0x200A))
   || (c =? 0x202F) || (c =? 0x205F) || (c =? 0x3000))%N.

Definition is_line_terminator (c : N) : bool :=
  ((c =? 0xA) || (c =? 0xD) || (c =? 0x2028) || (c =? 0x2029))%N.

Definition is_trimmed_char (c : N) : bool :=
  is_white_space c || is_line_terminator c.

Fixpoint trimStart (s : t) : t :=
  match s with
  | [] => []
  | c :: r => if is_trimmed_char c then trimStart r else s
  end.

Definition trimEnd (s : t) : t := rev (trimStart (rev s)).

Definition trim (s : t) : t := trimEnd (trimStart s).

Definition eqb (a b : t) : bool := bool_decide (a = b).

(** A string is truthy unless it is empty. *)
Definition truthy (s : t) : bool := negb (length s =? 0).

(** [s.split(",")]. *)
Fixpoint split_comma (s : t) : list t :=
  match s with
  | [] => [[]]
  | c :: r =>
      if (c =? 44)%N then [] :: split_comma r
      else match split_comma r with
           | h :: rest => (c :: h) :: rest
           | [] => [[c]]
           end
  end.

Definition is_digit (c : N) : bool := ((48 <=? c) && (c <=? 57))%N.

Definition digit_value (c : N) : Z := Z.of_N c - 48.

(** The integer written by a run of decimal digits. *)
Definition decimal_value (ds : t) : Z :=
  fold_left (fun acc c => 10 * acc + digit_value c)%Z ds 0%Z.

(** The decimal digits of a natural number, as a template literal
    [`${n}`] prints an integral Number. *)
Fixpoint of_uint (d : Decimal.uint) : t :=
  match d with
  | Decimal.Nil => []
  | Decimal.D0 d => 48%N :: of_uint d
  | Decimal.D1 d => 49%N :: of_uint d
  | Decimal.D2 d => 50%N :: of_uint d
  | Decimal.D3 d => 51%N :: of_uint d
  | Decimal.D4 d => 52%N :: of_uint d
  | Decimal.D5 d => 53%N :: of_uint d
  | Decimal.D6 d => 54%N :: of_uint d
  | Decimal.D7 d => 55%N :: of_uint d
  | Decimal.D8 d => 56%N :: of_uint d
  | Decimal.D9 d => 57%N :: of_uint d
  end.

Definition of_nat (n : nat) : t := of_uint (Nat.to_uint n).

End JsString.

Abbreviation jsstring := JsString.t.
Abbreviation js := JsString.js.

(** ** JavaScript Numbers

    A Number is kept by its mathematical value: NaN, an infinity, or a
    finite value [m * 2 ^ e]; every finite binary64 has this form.  The
    sign of zero is not kept: nothing below observes it. *)

Module JsNumber.

Inductive t :=
| NaN
| Infinity (negative : bool)
| Finite (m e : Z).

Definition of_Z (n : Z) : t := Finite n 0.

Definition of_spec_float (x : spec_float) : t :=
  match x with
  | S754_zero _ => Finite 0 0
  | S754_infinity s => Infinity s
  | S754_nan => NaN
  | S754_finite s m e => Finite (if s then Z.neg m else Z.pos m) e
  end.

(** The Number value of an integer: the nearest binary64, ties to
    even, an infinity past the largest finite one. *)
Definition round_to_double (n : Z) : t :=
  of_spec_float (binary_normalize 53 1024 n 0 false).

Definition isFinite (x : t) : bool :=
  match x with
  | Finite _ _ => true
  | _ => false
  end.

(** [floor (m * 2 ^ e + 1/2)]. *)
Definition round_half_up (m e : Z) : Z :=
  if (0 <=? e)%Z then (m * 2 ^ e)%Z
  else ((2 * m + 2 ^ (- e)) / 2 ^ (1 - e))%Z.

(** [Math.round]: the nearest integer, ties towards positive
    infinity. *)
Definition Math_round (x : t) : t :=
  match x with
  | Finite m e => Finite (round_half_up m e) 0
  | _ => x
  end.

(** [x < y]; false when either is NaN. *)
Definition ltb (x y : t) : bool :=
  match x, y with
  | NaN, _ | _, NaN => false
  | Infinity true, Infinity true => false
  | Infinity true, _ => true
  | _, Infinity true => false
  | Infinity false, _ => false
  | _, Infinity false => true
  | Finite m1 e1, Finite m2 e2 =>
      let e := Z.min e1 e2 in
      (m1 * 2 ^ (e1 - e) <? m2 * 2 ^ (e2 - e))%Z
  end.

Definition Math_max (x y : t) : t :=
  match x, y with
  | NaN, _ | _, NaN => NaN
  | _, _ => if ltb x y then y else x
  end.

Definition Math_min (x y : t) : t :=
  match x, y with
  | NaN, _ | _, NaN => NaN
  | _, _ => if ltb y x then y else x
  end.

Fixpoint digit_prefix (s : jsstring) : jsstring :=
  match s with
  | [] => []
  | c :: r => if JsString.is_digit c then c :: digit_prefix r else []
  end.

(** [Number.parseInt(s, 10)]: leading white space is skipped, a sign is
    read, then the longest run of decimal digits; the integer it writes
    is taken exactly and rounded to a Number. *)
Definition parseInt10 (s : jsstring) : t :=
  let inputString := JsString.trimStart s in
  let '(sign, rest) :=
    match inputString with
    | c :: r =>
        if (c =? 45)%N then ((-1)%Z, r)
        else if (c =? 43)%N then (1%Z, r)
        else (1%Z, inputString)
    | [] => (1%Z, inputString)
    end in
  let digits := digit_prefix rest in
  match digits with
  | [] => NaN
  | _ => round_to_double (sign * JsString.decimal_value digits)
  end.

End JsNumber.

(** ** JavaScript values, as far as [typeof] tells them apart *)

Inductive js_value :=
| VUndefined
| VNull
| VBoolean (b : bool)
| VNumber (x : JsNumber.t)
| VString (s : jsstring)
| VBigInt (z : Z)
| VSymbol (description : jsstring)
| VObject (ref : nat).

(** ** Chat font size *)

Module FontSize.
Import JsNumber.

Definition CHAT_FONT_SIZE_MIN : Z := 10.
Definition CHAT_FONT_SIZE_MAX : Z := 24.

(** [/^-?\d+$/.test(s)]. *)
Definition test_signed_digits (s : jsstring) : bool :=
  let digits (r : jsstring) :=
    negb (length r =? 0) && forallb JsString.is_digit r in
  match s with
  | c :: r => if (c =? 45)%N then digits r else digits s
  | [] => digits s
  end.

Definition numericValue (value : js_value) : JsNumber.t :=
  match value with
  | VNumber x => x
  | VString s =>
      let trimmedValue := JsString.trim s in
      if length trimmedValue =? 0 then NaN
      else if negb (test_signed_digits trimmedValue) then NaN
      else parseInt10 trimmedValue
  | _ => NaN
  end.

Definition parseChatFontSize (value : js_value) : option JsNumber.t :=
  match value with
  | VNull | VUndefined => None
  | _ =>
      if negb (isFinite (numericValue value)) then None
      else
        Some (Math_min (of_Z CHAT_FONT_SIZE_MAX)
                (Math_max (of_Z CHAT_FONT_SIZE_MIN)
                   (Math_round (numericValue value))))
  end.

End FontSize.

(** ** The chat input component *)

Module ChatInput.

(** *** Image constants *)

Definition MAX_IMAGE_SIZE_MB : nat := 5.
Definition MAX_IMAGE_SIZE_BYTES : Z := Z.of_nat MAX_IMAGE_SIZE_MB * 1024 * 1024.
Definition MAX_IMAGE_COUNT : nat := 10.

Definition SUPPORTED_IMAGE_TYPES : list jsstring :=
  [js "image/png"; js "image/jpeg"; js "image/gif"; js "image/webp"].

Definition is_supported_image_type (ty : jsstring) : bool :=
  existsb (JsString.eqb ty) SUPPORTED_IMAGE_TYPES.

(** *** Data *)

(** A browser [File]: its byte size, its MIME type, and what a
    [FileReader] makes of it ([None]: the reader fails). *)
Record File := {
  size : Z;
  type : jsstring;
  readAsDataURL : option jsstring
}.

(** [AttachedImage].  [data] is [None] for JavaScript's [undefined].
    [sourceSize] is a specification-only field, absent from the
    source: the [size] of the file the image was read from. *)
Record AttachedImage := {
  id : jsstring;
  data : option jsstring;
  mimeType : jsstring;
  sourceSize : Z
}.

Record ImagePromptContent := {
  prompt_type : jsstring;
  prompt_data : option jsstring;
  prompt_mimeType : jsstring
}.

Record SlashCommand := {
  name : jsstring;
  hint : option jsstring
}.

(** [NoteMetadata]: the component only passes these around. *)
Record NoteMetadata := { note_path : jsstring }.

(** What a suggestion hook ([useMentions], [useSlashCommands]) shows
    to the component; [selectSuggestion] is the text the hook's method
    returns. *)
Record Suggestions (A : Type) := {
  isOpen : bool;
  suggestions : list A;
  selectedIndex : Z;
  selectSuggestion : jsstring -> A -> jsstring
}.
Arguments isOpen {A}.
Arguments suggestions {A}.
Arguments selectedIndex {A}.
Arguments selectSuggestion {A}.

Inductive SendMessageShortcut := ShortcutEnter | ShortcutModEnter.

(** The props and local state one render of the component closes
    over. *)
Record Props := {
  isSending : bool;
  isSessionReady : bool;
  isRestoringSession : bool;
  mentions : Suggestions NoteMetadata;
  slashCommands : Suggestions SlashCommand;
  supportsImages : bool;
  agentId : jsstring;
  inputValue : jsstring;
  attachedImages : list AttachedImage;
  sendMessageShortcut : SendMessageShortcut
}.

Record DataTransferItem := {
  item_type : jsstring;
  getAsFile : option File
}.

Record ClipboardEvent := { clipboard_items : option (list DataTransferItem) }.

Record DragEvent := { dataTransfer_files : option (list File) }.

Record KeyboardEvent := {
  key : jsstring;
  isComposing : bool;
  shiftKey : bool;
  metaKey : bool;
  ctrlKey : bool
}.

Inductive direction := Up | Down.

(** *** Effects

    A handler is run for the calls it makes, in order: on the event,
    on the owner's callbacks, on the hooks, on local state, on the
    host. *)
Inductive effect :=
| PreventDefault
| NewNotice (message : jsstring)
| ConsoleError
| OnAttachedImagesChange (images : list AttachedImage)
| OnInputChange (value : jsstring)
| SetHintText (value : option jsstring)
| SetCommandText (value : jsstring)
| SetIsDraggingOver (value : bool)
| SetDragCounter (value : Z)
| SetTimeoutFocus (cursorPos : nat)
| OnStopGeneration
| OnSendMessage (content : jsstring) (images : option (list ImagePromptContent))
| SlashNavigate (d : direction)
| MentionsNavigate (d : direction)
| SlashSelectSuggestion (text : jsstring) (command : SlashCommand)
| MentionsSelectSuggestion (text : jsstring) (suggestion : NoteMetadata)
| SlashClose
| MentionsClose.

Definition notice_max_images : jsstring :=
  js "[Agent Client] Maximum " ++ JsString.of_nat MAX_IMAGE_COUNT
    ++ js " images allowed".

Definition notice_too_large : jsstring :=
  js "[Agent Client] Image too large (max "
    ++ JsString.of_nat MAX_IMAGE_SIZE_MB ++ js "MB)".

Definition notice_failed : jsstring := js "[Agent Client] Failed to attach image".

Definition notice_not_supported : jsstring :=
  js "[Agent Client] This agent does not support image attachments".

(** *** Image attachments *)

Definition addImage (attachedImages : list AttachedImage)
    (image : AttachedImage) : list effect :=
  if MAX_IMAGE_COUNT <=? length attachedImages then []
  else [OnAttachedImagesChange (attachedImages ++ [image])].

Definition removeImage (attachedImages : list AttachedImage)
    (id0 : jsstring) : list effect :=
  [OnAttachedImagesChange
     (filter (fun img => id img <> id0) attachedImages)].

(** [None]: the promise is rejected. *)
Definition fileToBase64 (file : File) : option (option jsstring) :=
  match readAsDataURL file with
  | Some result => Some (JsString.split_comma result !! 1)
  | None => None
  end.

(** The loop of [processImageFiles]; [randomUUID k] is the [k]-th
    identifier [crypto.randomUUID()] hands out during the call. *)
Fixpoint processImageFiles_from (randomUUID : nat -> jsstring)
    (attachedImages : list AttachedImage) (addedCount : nat)
    (files : list File) : list effect :=
  match files with
  | [] => []
  | file :: rest =>
      if MAX_IMAGE_COUNT <=? length attachedImages + addedCount then
        [NewNotice notice_max_images]
      else if (MAX_IMAGE_SIZE_BYTES <? size file)%Z then
        NewNotice notice_too_large
          :: processImageFiles_from randomUUID attachedImages addedCount rest
      else
        match fileToBase64 file with
        | Some base64 =>
            addImage attachedImages
              {| id := randomUUID addedCount;
                 data := base64;
                 mimeType := type file;
                 sourceSize := size file |}
              ++ processImageFiles_from randomUUID attachedImages
                   (addedCount + 1) rest
        | None =>
            ConsoleError :: NewNotice notice_failed
              :: processImageFiles_from randomUUID attachedImages addedCount rest
        end
  end.

Definition processImageFiles (randomUUID : nat -> jsstring)
    (attachedImages : list AttachedImage) (files : list File) : list effect :=
  processImageFiles_from randomUUID attachedImages 0 files.

Definition clipboard_image_files (items : list DataTransferItem) : list File :=
  omap (fun item =>
          if is_supported_image_type (item_type item) then getAsFile item
          else None) items.

Definition handlePaste (randomUUID : nat -> jsstring) (p : Props)
    (e : ClipboardEvent) : list effect :=
  match clipboard_items e with
  | None => []
  | Some items =>
      let imageFiles := clipboard_image_files items in
      if length imageFiles =? 0 then []
      else
        PreventDefault ::
        (if negb (supportsImages p) then [NewNotice notice_not_supported]
         else processImageFiles randomUUID (attachedImages p) imageFiles)
  end.

Definition handleDrop (randomUUID : nat -> jsstring) (p : Props)
    (e : DragEvent) : list effect :=
  SetDragCounter 0 :: SetIsDraggingOver false ::
  match dataTransfer_files e with
  | None => []
  | Some files =>
      if length files =? 0 then []
      else
        let imageFiles :=
          filter (fun file => is_supported_image_type (type file) = true) files in
        if length imageFiles =? 0 then []
        else
          PreventDefault ::
          (if negb (supportsImages p) then [NewNotice notice_not_supported]
           else processImageFiles randomUUID (attachedImages p) imageFiles)
  end.

(** *** Suggestions *)

Definition setTextAndFocus (newText : jsstring) : list effect :=
  [OnInputChange newText; SetTimeoutFocus (length newText)].

Definition selectMention (p : Props) (suggestion : NoteMetadata) : list effect :=
  let newText := selectSuggestion (mentions p) (inputValue p) suggestion in
  MentionsSelectSuggestion (inputValue p) suggestion
    :: setTextAndFocus newText.

Definition has_hint (command : SlashCommand) : bool :=
  match hint command with
  | Some h => JsString.truthy h
  | None => false
  end.

Definition handleSelectSlashCommand (p : Props) (command : SlashCommand)
    : list effect :=
  let newText := selectSuggestion (slashCommands p) (inputValue p) command in
  let cmdText := js "/" ++ name command ++ js " " in
  [SlashSelectSuggestion (inputValue p) command; OnInputChange newText]
  ++ (if has_hint command
      then [SetCommandText cmdText; SetHintText (hint command)]
      else [SetHintText None; SetCommandText []])
  ++ [SetTimeoutFocus
        (if has_hint command then length cmdText else length newText)].

(** [xs[i]] for a Number [i] that is an integer. *)
Definition at_index {A} (xs : list A) (i : Z) : option A :=
  if (i <? 0)%Z then None else xs !! Z.to_nat i.

(** *** Submit *)

Definition to_prompt (img : AttachedImage) : ImagePromptContent :=
  {| prompt_type := js "image";
     prompt_data := data img;
     prompt_mimeType := mimeType img |}.

Definition handleSendOrStop (p : Props) : list effect :=
  if isSending p then [OnStopGeneration]
  else if negb (JsString.truthy (JsString.trim (inputValue p)))
          && (length (attachedImages p) =? 0) then []
  else
    let messageToSend := JsString.trim (inputValue p) in
    let imagesToSend := map to_prompt (attachedImages p) in
    [OnInputChange []; OnAttachedImagesChange [];
     SetHintText None; SetCommandText [];
     OnSendMessage messageToSend
       (if 0 <? length imagesToSend then Some imagesToSend else None)].

Definition key_is (e : KeyboardEvent) (k : string) : bool :=
  JsString.eqb (key e) (js k).

(** The effects, and the boolean the handler returns. *)
Definition handleDropdownKeyPress (p : Props) (e : KeyboardEvent)
    : list effect * bool :=
  let isSlashCommandActive := isOpen (slashCommands p) in
  let isMentionActive := isOpen (mentions p) in
  if negb isSlashCommandActive && negb isMentionActive then ([], false)
  else if key_is e "ArrowDown" then
    (PreventDefault ::
       (if isSlashCommandActive then [SlashNavigate Down]
        else [MentionsNavigate Down]), true)
  else if key_is e "ArrowUp" then
    (PreventDefault ::
       (if isSlashCommandActive then [SlashNavigate Up]
        else [MentionsNavigate Up]), true)
  else if key_is e "Enter" || key_is e "Tab" then
    if key_is e "Enter" && isComposing e then ([], false)
    else
      (PreventDefault ::
         (if isSlashCommandActive then
            match at_index (suggestions (slashCommands p))
                    (selectedIndex (slashCommands p)) with
            | Some selectedCommand => handleSelectSlashCommand p selectedCommand
            | None => []
            end
          else
            match at_index (suggestions (mentions p))
                    (selectedIndex (mentions p)) with
            | Some selectedSuggestion => selectMention p selectedSuggestion
            | None => []
            end), true)
  else if key_is e "Escape" then
    (PreventDefault ::
       (if isSlashCommandActive then [SlashClose] else [MentionsClose]), true)
  else ([], false).

Definition isButtonDisabled (p : Props) : bool :=
  negb (isSending p)
  && ((JsString.eqb (JsString.trim (inputValue p)) []
       && (length (attachedImages p) =? 0))
      || negb (isSessionReady p)
      || isRestoringSession p).

Definition handleKeyDown (p : Props) (e : KeyboardEvent) : list effect :=
  let '(effects, handled) := handleDropdownKeyPress p e in
  if handled then effects
  else
    effects ++
    if key_is e "Enter" && negb (isComposing e) then
      let shouldSend :=
        match sendMessageShortcut p with
        | ShortcutEnter => negb (shiftKey e)
        | ShortcutModEnter => metaKey e || ctrlKey e
        end in
      if shouldSend then
        PreventDefault ::
        (if negb (isButtonDisabled p) && negb (isSending p)
         then handleSendOrStop p else [])
      else []
    else [].

(** A click on the send button: a disabled button takes no click. *)
Definition clickSendButton (p : Props) : list effect :=
  if isButtonDisabled p then [] else handleSendOrStop p.

(** *** The effect that clears the images when the agent changes

    [useEffect(..., [agentId, onAttachedImagesChange])]: the effect
    runs after the first render and after a render in which one of
    the two dependencies differs from the previous render's.  The
    callback is compared by identity, here a token. *)
Record AgentEffectDeps := {
  dep_agentId : jsstring;
  dep_onAttachedImagesChange : nat
}.

Definition deps_changed (prev : option AgentEffectDeps)
    (cur : AgentEffectDeps) : bool :=
  match prev with
  | None => true
  | Some old =>
      negb (JsString.eqb (dep_agentId old) (dep_agentId cur))
      || negb (dep_onAttachedImagesChange old =? dep_onAttachedImagesChange cur)
  end.

Definition clearImagesEffect (prev : option AgentEffectDeps)
    (cur : AgentEffectDeps) : list effect :=
  if deps_changed prev cur then [OnAttachedImagesChange []] else [].

(** *** The dropdowns the component renders *)

Inductive dropdown := MentionDropdown | SlashCommandDropdown.

Definition renderedDropdowns (p : Props) : list dropdown :=
  (if isOpen (mentions p) then [MentionDropdown] else [])
  ++ (if isOpen (slashCommands p) then [SlashCommandDropdown] else []).

(** *** What the effects do

    The input state (text and images) is owned by the hosting view,
    which is not among the sources; the component is controlled, so the
    owner is taken to store what [onInputChange] and
    [onAttachedImagesChange] hand it.  Local state follows its
    setters. *)
Record InputState := {
  text : jsstring;
  images : list AttachedImage
}.

Record LocalState := {
  hintText : option jsstring;
  commandText : jsstring;
  isDraggingOver : bool;
  dragCounter : Z
}.

Record HookState := {
  mentionsOpen : bool;
  slashOpen : bool
}.

Record State := {
  input : InputState;
  local : LocalState;
  hooks : HookState
}.

Definition st_inputValue (s : State) : jsstring := text (input s).
Definition st_attachedImages (s : State) : list AttachedImage := images (input s).

(** Modelled from the spec: the suggestion hooks [useMentions] and
    [useSlashCommands] are not among the sources.  Following the
    spec, [close()] closes the hook's dropdown, and applying a
    suggestion with [selectSuggestion] closes it as well; navigation
    leaves it open. *)
Definition hook_step (h : HookState) (e : effect) : HookState :=
  match e with
  | SlashSelectSuggestion _ _ | SlashClose =>
      {| mentionsOpen := mentionsOpen h; slashOpen := false |}
  | MentionsSelectSuggestion _ _ | MentionsClose =>
      {| mentionsOpen := false; slashOpen := slashOpen h |}
  | _ => h
  end.

Definition input_step (i : InputState) (e : effect) : InputState :=
  match e with
  | OnInputChange v => {| text := v; images := images i |}
  | OnAttachedImagesChange imgs => {| text := text i; images := imgs |}
  | _ => i
  end.

Definition local_step (l : LocalState) (e : effect) : LocalState :=
  match e with
  | SetHintText v =>
      {| hintText := v; commandText := commandText l;
         isDraggingOver := isDraggingOver l; dragCounter := dragCounter l |}
  | SetCommandText v =>
      {| hintText := hintText l; commandText := v;
         isDraggingOver := isDraggingOver l; dragCounter := dragCounter l |}
  | SetIsDraggingOver v =>
      {| hintText := hintText l; commandText := commandText l;
         isDraggingOver := v; dragCounter := dragCounter l |}
  | SetDragCounter v =>
      {| hintText := hintText l; commandText := commandText l;
         isDraggingOver := isDraggingOver l; dragCounter := v |}
  | _ => l
  end.

Definition step (s : State) (e : effect) : State :=
  {| input := input_step (input s) e;
     local := local_step (local s) e;
     hooks := hook_step (hooks s) e |}.

Definition run (s : State) (trace : list effect) : State :=
  fold_left step trace s.

(** The notices of a trace, in order. *)
Definition notices (trace : list effect) : list jsstring :=
  omap (fun e => match e with NewNotice m => Some m | _ => None end) trace.

(** The lists a trace hands to [onAttachedImagesChange], in order. *)
Definition image_changes (trace : list effect) : list (list AttachedImage) :=
  omap (fun e => match e with OnAttachedImagesChange l => Some l | _ => None end)
    trace.


End ChatInput.

(** ** The floating launcher's instance labels *)

Module FloatingButton.

(** A registered floating view, as far as [instanceLabels] looks at
    it: its [viewId] and what [getDisplayName()] returns. *)
Record View := {
  view_viewId : jsstring;
  getDisplayName : jsstring
}.

Record Entry := {
  viewId : jsstring;
  label : jsstring
}.

Definition count_labels (entries : list Entry) : gmap (list N) nat :=
  fold_left
    (fun (countMap : gmap (list N) nat) e =>
       <[label e := default 0 (countMap !! label e) + 1]> countMap)
    entries ∅.

(** [entries.map(...)], with the [indexMap] the callback updates. *)
Fixpoint number_labels (countMap indexMap : gmap (list N) nat)
    (entries : list Entry) : list Entry :=
  match entries with
  | [] => []
  | e :: rest =>
      if 1 <? default 0 (countMap !! label e) then
        let idx := default 0 (indexMap !! label e) + 1 in
        let indexMap := <[label e := idx]> indexMap in
        {| viewId := viewId e;
           label := if idx =? 1 then label e
                    else label e ++ js " " ++ JsString.of_nat idx |}
          :: number_labels countMap indexMap rest
      else e :: number_labels countMap indexMap rest
  end.

(** [views] is what [plugin.viewRegistry.getByType("floating")]
    returns. *)
Definition instanceLabels (views : list View) : list Entry :=
  let entries :=
    map (fun v => {| viewId := view_viewId v; label := getDisplayName v |})
      views in
  let countMap := count_labels entries in
  number_labels countMap ∅ entries.

End FloatingButton.

(** ** The chat input component: drag feedback, hints, draft restore,
    send icon, textarea height *)

Module ChatInputLocal.
Import ChatInput.

(** *** Class lists

    A [DOMTokenList] is an ordered set of tokens. *)

(** [classList.remove(...tokens)]. *)
Definition classList_remove (tokens classes : list jsstring) : list jsstring :=
  filter (fun c => c ∉ tokens) classes.

(** [classList.add(token)]. *)
Definition classList_add (token : jsstring) (classes : list jsstring)
    : list jsstring :=
  if bool_decide (token ∈ classes) then classes else classes ++ [token].

Definition icon_sending : jsstring := js "agent-client-icon-sending".
Definition icon_active : jsstring := js "agent-client-icon-active".
Definition icon_inactive : jsstring := js "agent-client-icon-inactive".

(** [updateIconColor(svg)], on the class list of the icon. *)
Definition updateIconColor (p : Props) (svg : list jsstring) : list jsstring :=
  let svg := classList_remove [icon_sending; icon_active; icon_inactive] svg in
  if isSending p then classList_add icon_sending svg
  else
    let hasContent :=
      negb (JsString.eqb (JsString.trim (inputValue p)) [])
      || (0 <? length (attachedImages p)) in
    classList_add (if hasContent then icon_active else icon_inactive) svg.

(** The textarea, as far as [adjustTextareaHeight] touches it: its class
    list and the [--textarea-height] style property. *)
Record Textarea := {
  classList : list jsstring;
  textarea_height : option jsstring
}.

Definition textarea_auto_height : jsstring :=
  js "agent-client-textarea-auto-height".
Definition textarea_expanded : jsstring := js "agent-client-textarea-expanded".

(** [adjustTextareaHeight()]; the textarea is [None] while the ref is
    empty, and [scrollHeight] is what the browser reports once the
    auto-height class is on. *)
Definition adjustTextareaHeight (textarea : option Textarea)
    (scrollHeight : nat) : option Textarea :=
  match textarea with
  | None => None
  | Some t =>
      let classes :=
        classList_remove [textarea_auto_height; textarea_expanded]
          (classList t) in
      let classes := classList_add textarea_auto_height classes in
      let minHeight := 80 in
      let maxHeight := 300 in
      let calculatedHeight :=
        Nat.max minHeight (Nat.min scrollHeight maxHeight) in
      let '(classes, height) :=
        if minHeight <? calculatedHeight then
          (classList_add textarea_expanded classes,
           Some (JsString.of_nat calculatedHeight ++ js "px"))
        else (classes, None) in
      Some {| classList := classList_remove [textarea_auto_height] classes;
              textarea_height := height |}
  end.

(** *** Handlers with calls beyond those of [effect] *)

Inductive local_effect :=
| Core (e : effect)
| SetDropEffect (value : jsstring)
| LoggerLog (value : jsstring) (cursorPosition : Z)
| MentionsUpdateSuggestions (value : jsstring) (cursorPosition : Z)
| SlashUpdateSuggestions (value : jsstring) (cursorPosition : Z)
| OnRestoredMessageConsumed.

(** The calls of a trace that [effect] knows. *)
Definition core (trace : list local_effect) : list effect :=
  omap (fun e => match e with Core c => Some c | _ => None end) trace.

(** A drag event, as far as the handlers look at it:
    [e.dataTransfer?.types]. *)
Record DragTypes := { dataTransfer_types : option (list jsstring) }.

Definition drags_files (e : DragTypes) : bool :=
  match dataTransfer_types e with
  | Some types => existsb (JsString.eqb (js "Files")) types
  | None => false
  end.

Definition handleDragOver (e : DragTypes) : list local_effect :=
  if drags_files e then [Core PreventDefault; SetDropEffect (js "copy")]
  else [].

(** [counter] is [dragCounterRef.current] when the handler starts. *)
Definition handleDragEnter (counter : Z) (e : DragTypes) : list local_effect :=
  if drags_files e then
    [Core PreventDefault; Core (SetDragCounter (counter + 1))]
    ++ (if (counter + 1 =? 1)%Z then [Core (SetIsDraggingOver true)] else [])
  else [].

Definition handleDragLeave (counter : Z) : list local_effect :=
  Core (SetDragCounter (counter - 1))
  :: (if (counter - 1 =? 0)%Z then [Core (SetIsDraggingOver false)] else []).

(** [hintText] is truthy: neither null nor empty. *)
Definition hint_shown (l : LocalState) : option jsstring :=
  match hintText l with
  | Some h => if JsString.truthy h then Some h else None
  | None => None
  end.

(** [handleInputChange(e)]: [newValue] is [e.target.value],
    [selectionStart] is [e.target.selectionStart]. *)
Definition handleInputChange (l : LocalState) (newValue : jsstring)
    (selectionStart : option Z) : list local_effect :=
  let cursorPosition := default 0%Z selectionStart in
  [LoggerLog newValue cursorPosition; Core (OnInputChange newValue)]
  ++ match hint_shown l with
     | Some h =>
         let expectedText := commandText l ++ h in
         if negb (JsString.eqb newValue expectedText)
         then [Core (SetHintText None); Core (SetCommandText [])]
         else []
     | None => []
     end
  ++ [MentionsUpdateSuggestions newValue cursorPosition;
      SlashUpdateSuggestions newValue cursorPosition].

(** The body of the effect that restores a message; [restoredMessage]
    is [None] for null. *)
Definition restoreMessageEffect (restoredMessage : option jsstring)
    (inputValue : jsstring) : list local_effect :=
  match restoredMessage with
  | Some message =>
      if JsString.truthy message then
        (if negb (JsString.truthy (JsString.trim inputValue))
         then [Core (OnInputChange message);
               Core (SetTimeoutFocus (length message))]
         else [])
        ++ [OnRestoredMessageConsumed]
      else []
  | None => []
  end.

End ChatInputLocal.

(** ** Sample data *)

Module Samples.
Import ChatInput.

Definition png_2mb : File :=
  {| size := 2 * 1024 * 1024;
     type := js "image/png";
     readAsDataURL := Some (js "data:image/png;base64,iVBORw0KGgo=") |}.

Definition jpeg_7mb : File :=
  {| size := 7 * 1024 * 1024;
     type := js "image/jpeg";
     readAsDataURL := Some (js "data:image/jpeg;base64,/9j/4AAQSkZJRg==") |}.

Definition uuid (k : nat) : jsstring := js "uuid-" ++ JsString.of_nat k.

(** The image read from [png_2mb]. *)
Definition png_image_with (id0 : jsstring) : AttachedImage :=
  {| id := id0;
     data := Some (js "iVBORw0KGgo=");
     mimeType := js "image/png";
     sourceSize := 2 * 1024 * 1024 |}.

Definition png_image : AttachedImage := png_image_with (uuid 0).

Definition closed_hook {A} : Suggestions A :=
  {| isOpen := false;
     suggestions := [];
     selectedIndex := 0;
     selectSuggestion := fun text _ => text |}.

(** A ready session with an empty input, for an agent that takes
    images. *)
Definition idle : Props :=
  {| isSending := false;
     isSessionReady := true;
     isRestoringSession := false;
     mentions := closed_hook;
     slashCommands := closed_hook;
     supportsImages := true;
     agentId := js "agent-a";
     inputValue := [];
     attachedImages := [];
     sendMessageShortcut := ShortcutEnter |}.

Definition file_item (f : File) : DataTransferItem :=
  {| item_type := type f; getAsFile := Some f |}.

Definition paste_of (files : list File) : ClipboardEvent :=
  {| clipboard_items := Some (map file_item files) |}.

Definition drop_of (files : list File) : DragEvent :=
  {| dataTransfer_files := Some files |}.

End Samples.

(** ** Rounding an integer to binary64

    What [binary_normalize 53 1024 n 0] of the standard library's
    [SpecFloat] makes of an integer [n]: exact below [2 ^ 53], a float
    of magnitude at least [2 ^ 53] up to the overflow threshold, an
    infinity from there on. *)

Module Binary64.
Local Open Scope Z_scope.

Lemma iter_pos_nat {A} (f : A -> A) n : forall x,
  SpecFloat.iter_pos f n x = Nat.iter (Pos.to_nat n) f x.
Proof.
  induction n as [n IH|n IH|]; intros x.
  - rewrite Pos2Nat.inj_xI. cbn [SpecFloat.iter_pos]. rewrite !IH.
    rewrite <- Nat.iter_add, <- Nat.iter_succ_r. f_equal. lia.
  - rewrite Pos2Nat.inj_xO. cbn [SpecFloat.iter_pos].
    rewrite !IH, <- Nat.iter_add. f_equal. lia.
  - reflexivity.
Qed.

Lemma shr_1_nonneg m r s : 0 <= m ->
  shr_1 {| shr_m := m; shr_r := r; shr_s := s |} =
  {| shr_m := Z.div2 m; shr_r := Z.odd m; shr_s := r || s |}.
Proof.
  intros Hm. destruct m as [|[p|p|]|p]; try reflexivity; lia.
Qed.

Lemma shr_iter n k : 0 <= n ->
  let mrs := Nat.iter k shr_1 {| shr_m := n; shr_r := false; shr_s := false |} in
  shr_m mrs = n / 2 ^ Z.of_nat k /\
  (shr_r mrs = true <-> 2 ^ Z.of_nat k <= 2 * (n mod 2 ^ Z.of_nat k)) /\
  (shr_s mrs = true <->
   n mod 2 ^ Z.of_nat k <> 0 /\ 2 * (n mod 2 ^ Z.of_nat k) <> 2 ^ Z.of_nat k).
Proof.
  intros Hn. induction k as [|k IH].
  - simpl. rewrite Z.div_1_r, Z.mod_1_r. repeat split; try lia; try discriminate.
  - cbv zeta in *. rewrite Nat2Z.inj_succ, Z.pow_succ_r by lia.
    rewrite Nat.iter_succ.
    destruct (Nat.iter k shr_1 _) as [m r s]. cbn [shr_m shr_r shr_s] in IH.
    destruct IH as (Hm & Hr & Hs).
    assert (HP : 0 < 2 ^ Z.of_nat k) by (apply Z.pow_pos_nonneg; lia).
    rewrite shr_1_nonneg by (subst m; apply Z.div_pos; lia).
    cbn [shr_m shr_r shr_s].
    rewrite (Z.mul_comm 2 (2 ^ Z.of_nat k)).
    rewrite Z.rem_mul_r by lia.
    rewrite <- Z.div_div by lia.
    rewrite <- Hm. rewrite Z.div2_div. rewrite Zmod_odd.
    pose proof (Z.mod_pos_bound n (2 ^ Z.of_nat k) HP) as HR.
    set (R := n mod 2 ^ Z.of_nat k) in *.
    set (P := 2 ^ Z.of_nat k) in *.
    split; [reflexivity|].
    destruct (Z.odd m); rewrite ?Z.mul_1_r, ?Z.mul_0_r, ?Z.add_0_r.
    + split; [split; [lia|reflexivity]|].
      rewrite orb_true_iff, Hr, Hs. lia.
    + split; [split; [discriminate|lia]|].
      rewrite orb_true_iff, Hr, Hs. lia.
Qed.

Lemma digits2_size p : digits2_pos p = Pos.size p.
Proof. induction p; simpl; congruence. Qed.

Lemma digits2_bounds p :
  2 ^ (Zpos (digits2_pos p) - 1) <= Zpos p < 2 ^ Zpos (digits2_pos p).
Proof.
  rewrite digits2_size.
  pose proof (Pos.size_gt p) as Hg. pose proof (Pos.size_le p) as Hl.
  assert (Hpow : Zpos (2 ^ Pos.size p) = 2 ^ Zpos (Pos.size p)).
  { rewrite Pos2Z.inj_pow. reflexivity. }
  split.
  - assert (2 * 2 ^ (Z.pos (Pos.size p) - 1) = 2 ^ Zpos (Pos.size p)).
    { rewrite <- Z.pow_succ_r by lia. f_equal. lia. }
    lia.
  - lia.
Qed.

Lemma digits2_unique p k :
  2 ^ (k - 1) <= Zpos p < 2 ^ k -> Zpos (digits2_pos p) = k.
Proof.
  intros [Hl Hu]. destruct (digits2_bounds p) as [Hl' Hu'].
  assert (0 < k).
  { destruct (Z.le_gt_cases k 0) as [Hk|]; [|lia].
    assert (2 ^ k <= 2 ^ 0) by (apply Z.pow_le_mono_r; lia). simpl in *. lia. }
  assert (k - 1 < Zpos (digits2_pos p)).
  { apply (Z.pow_lt_mono_r_iff 2); lia. }
  assert (Zpos (digits2_pos p) - 1 < k).
  { apply (Z.pow_lt_mono_r_iff 2); lia. }
  lia.
Qed.

Lemma shr_nonpos mrs e n : n <= 0 -> shr mrs e n = (mrs, e).
Proof. intros H. destruct n; try reflexivity. lia. Qed.

Lemma shr_pos mrs e n :
  0 < n -> shr mrs e n = (Nat.iter (Z.to_nat n) shr_1 mrs, e + n).
Proof.
  intros H. destruct n as [|p|p]; try lia.
  unfold shr. rewrite iter_pos_nat. reflexivity.
Qed.

Lemma shl_align_ge mx ex ex' : ex <= ex' -> shl_align mx ex ex' = (mx, ex).
Proof.
  intros H. unfold shl_align. destruct (ex' - ex) eqn:He; try reflexivity. lia.
Qed.

Lemma iter_xO p k : Zpos (Nat.iter k xO p) = Zpos p * 2 ^ Z.of_nat k.
Proof.
  induction k as [|k IH].
  - simpl. lia.
  - rewrite Nat.iter_succ, Pos2Z.inj_xO, IH, Nat2Z.inj_succ, Z.pow_succ_r by lia.
    lia.
Qed.

Lemma shl_align_lt mx ex ex' :
  ex' < ex ->
  exists mz, shl_align mx ex ex' = (mz, ex') /\ Zpos mz = Zpos mx * 2 ^ (ex - ex').
Proof.
  intros H. unfold shl_align. destruct (ex' - ex) as [|d|d] eqn:He; try lia.
  eexists. split; [reflexivity|].
  rewrite Pos2Nat.inj_iter. fold (Nat.iter (Pos.to_nat d) xO mx).
  rewrite iter_xO. f_equal. f_equal. lia.
Qed.

Lemma fexp_normal e : -1021 <= e -> fexp 53 1024 e = e - 53.
Proof. intros H. unfold fexp, emin. lia. Qed.

(** The second half of [binary_round_aux]: renormalising after
    rounding. *)
Definition finish (s : bool) (m e : Z) : spec_float :=
  let '(mrs, e') := shr_fexp 53 1024 m e loc_Exact in
  match shr_m mrs with
  | Z0 => S754_zero s
  | Zpos m' => if e' <=? 971 then S754_finite s m' e' else S754_infinity s
  | Zneg _ => S754_nan
  end.

Lemma finish_53 s m e :
  Zpos (digits2_pos m) = 53 -> -1074 <= e ->
  finish s (Zpos m) e = if e <=? 971 then S754_finite s m e else S754_infinity s.
Proof.
  intros Hd He. unfold finish, shr_fexp.
  cbn [Zdigits2 shr_record_of_loc]. rewrite Hd, fexp_normal by lia.
  rewrite shr_nonpos by lia. reflexivity.
Qed.

Lemma finish_carry s e :
  -1074 <= e ->
  finish s (2 ^ 53) e =
  if e + 1 <=? 971 then S754_finite s (2 ^ 52) (e + 1) else S754_infinity s.
Proof.
  intros He. unfold finish, shr_fexp.
  change (2 ^ 53) with (Zpos (2 ^ 53)).
  cbn [Zdigits2 shr_record_of_loc].
  change (Zpos (digits2_pos (2 ^ 53))) with 54.
  rewrite fexp_normal by lia.
  replace (54 + e - 53 - e) with 1 by lia.
  rewrite shr_pos by lia. change (Z.to_nat 1) with 1%nat.
  cbn [Nat.iter nat_rect]. rewrite shr_1_nonneg by lia. reflexivity.
Qed.

Lemma binary_round_aux_exact s m e :
  Zpos (digits2_pos m) = 53 -> -1074 <= e ->
  binary_round_aux 53 1024 s (Zpos m) e loc_Exact =
  if e <=? 971 then S754_finite s m e else S754_infinity s.
Proof.
  intros Hd He. unfold binary_round_aux, shr_fexp at 1.
  cbn [Zdigits2 shr_record_of_loc]. rewrite Hd, fexp_normal by lia.
  rewrite shr_nonpos by lia.
  cbn [shr_m loc_of_shr_record round_nearest_even].
  apply (finish_53 s m e Hd He).
Qed.

Lemma pow_split a b : 0 <= a -> 0 <= b -> 2 ^ (a + b) = 2 ^ a * 2 ^ b.
Proof. intros. apply Z.pow_add_r; lia. Qed.

Lemma binary_round_small s p :
  Zpos (digits2_pos p) <= 53 ->
  exists m,
    binary_round 53 1024 s p 0 = S754_finite s m (Zpos (digits2_pos p) - 53) /\
    Zpos m = Zpos p * 2 ^ (53 - Zpos (digits2_pos p)).
Proof.
  intros HD. unfold binary_round.
  destruct (digits2_bounds p) as [Hl Hu].
  set (D := Zpos (digits2_pos p)) in *.
  assert (HD1 : 1 <= D) by (subst D; lia).
  rewrite fexp_normal by lia. rewrite Z.add_0_r.
  destruct (Z.eq_dec D 53) as [HD53|HD53].
  - rewrite shl_align_ge by lia.
    rewrite binary_round_aux_exact by (fold D; lia).
    exists p. rewrite HD53. simpl. split; [reflexivity|lia].
  - destruct (shl_align_lt p 0 (D - 53)) as (mz & -> & Hmz); [lia|].
    replace (0 - (D - 53)) with (53 - D) in Hmz by lia.
    assert (Hmzd : Zpos (digits2_pos mz) = 53).
    { apply digits2_unique. rewrite Hmz.
      assert (H52 : 2 ^ (53 - 1) = 2 ^ (D - 1) * 2 ^ (53 - D)).
      { rewrite <- pow_split by lia. f_equal. lia. }
      assert (H53 : 2 ^ 53 = 2 ^ D * 2 ^ (53 - D)).
      { rewrite <- pow_split by lia. f_equal. lia. }
      rewrite H52, H53.
      assert (0 < 2 ^ (53 - D)) by (apply Z.pow_pos_nonneg; lia).
      split; [apply Z.mul_le_mono_nonneg_r | apply Z.mul_lt_mono_pos_r]; lia. }
    rewrite binary_round_aux_exact by lia.
    exists mz. split; [|exact Hmz].
    destruct (Z.leb_spec (D - 53) 971); [reflexivity|lia].
Qed.

Definition round_bit (r s : bool) (m : Z) : bool := r && (s || Z.odd m).

Lemma round_nearest_even_bit m r s :
  round_nearest_even m (loc_of_shr_record {| shr_m := m; shr_r := r; shr_s := s |})
  = m + (if round_bit r s m then 1 else 0).
Proof.
  unfold round_bit. rewrite <- Z.negb_even.
  destruct r, s; simpl; try lia; destruct (Z.even m); simpl; lia.
Qed.

Lemma binary_round_large s p :
  let D := Zpos (digits2_pos p) in
  let sh := D - 53 in
  let q := Zpos p / 2 ^ sh in
  let rem := Zpos p mod 2 ^ sh in
  54 <= D ->
  exists m e,
    binary_round 53 1024 s p 0 =
      (if e <=? 971 then S754_finite s m e else S754_infinity s) /\
    2 ^ 52 <= Zpos m < 2 ^ 53 /\
    ((Zpos m = q /\ e = sh /\ (2 * rem < 2 ^ sh \/ 2 * rem = 2 ^ sh /\ Z.odd q = false)) \/
     (Zpos m = q + 1 /\ e = sh /\ (2 ^ sh < 2 * rem \/ 2 * rem = 2 ^ sh /\ Z.odd q = true)) \/
     (Zpos m = 2 ^ 52 /\ q + 1 = 2 ^ 53 /\ e = sh + 1 /\ 2 ^ sh <= 2 * rem)).
Proof.
  intros D sh q rem HD. unfold binary_round.
  destruct (digits2_bounds p) as [Hl Hu]. fold D in Hl, Hu.
  rewrite Z.add_0_r. fold D. rewrite fexp_normal by lia. fold sh.
  rewrite shl_align_ge by lia.
  unfold binary_round_aux, shr_fexp at 1.
  cbn [Zdigits2 shr_record_of_loc]. fold D.
  rewrite Z.add_0_r, fexp_normal, Z.sub_0_r by lia. fold sh.
  rewrite shr_pos by lia.
  pose proof (shr_iter (Zpos p) (Z.to_nat sh) ltac:(lia)) as Hit.
  cbv zeta in Hit. rewrite Z2Nat.id in Hit by lia.
  fold q rem in Hit.
  destruct (Nat.iter (Z.to_nat sh) shr_1 _) as [m1 r1 s1].
  cbn [shr_m shr_r shr_s] in Hit. destruct Hit as (Hm1 & Hr1 & Hs1).
  cbn [shr_m]. rewrite round_nearest_even_bit.
  assert (HP : 0 < 2 ^ sh) by (apply Z.pow_pos_nonneg; lia).
  assert (Hq : 2 ^ 52 <= q < 2 ^ 53).
  { unfold q. split.
    - apply Z.div_le_lower_bound; [lia|].
      rewrite <- pow_split by lia. replace (sh + 52) with (D - 1) by lia. lia.
    - apply Z.div_lt_upper_bound; [lia|].
      rewrite <- pow_split by lia. replace (sh + 53) with D by lia. lia. }
  pose proof (Z.mod_pos_bound (Zpos p) (2 ^ sh) HP) as Hrem. fold rem in Hrem.
  subst m1.
  set (b := round_bit r1 s1 q).
  assert (Hb : b = true <-> (2 ^ sh < 2 * rem \/ 2 * rem = 2 ^ sh /\ Z.odd q = true)).
  { unfold b, round_bit. rewrite andb_true_iff, orb_true_iff, Hr1, Hs1.
    clear -HP Hrem. destruct (Z.odd q); intuition (try discriminate; lia). }
  match goal with
  | |- context [shr_fexp 53 1024 ?m ?e loc_Exact] =>
      change (exists m' e',
                finish s m e =
                (if e' <=? 971 then S754_finite s m' e' else S754_infinity s) /\
                2 ^ 52 <= Zpos m' < 2 ^ 53 /\
                ((Zpos m' = q /\ e' = sh /\
                  (2 * rem < 2 ^ sh \/ 2 * rem = 2 ^ sh /\ Z.odd q = false)) \/
                 (Zpos m' = q + 1 /\ e' = sh /\
                  (2 ^ sh < 2 * rem \/ 2 * rem = 2 ^ sh /\ Z.odd q = true)) \/
                 (Zpos m' = 2 ^ 52 /\ q + 1 = 2 ^ 53 /\ e' = sh + 1 /\
                  2 ^ sh <= 2 * rem)))
  end.
  rewrite Z.add_0_l.
  destruct b.
  - (* rounded up *)
    destruct (Z.eq_dec (q + 1) (2 ^ 53)) as [Hcarry|Hcarry].
    + rewrite Hcarry, finish_carry by lia.
      exists (2 ^ 52)%positive, (sh + 1).
      split; [reflexivity|]. split; [simpl; lia|].
      right. right. repeat split; try lia.
    + assert (Hq1 : 2 ^ 52 <= q + 1 < 2 ^ 53) by lia.
      destruct (q + 1) as [|m'|m'] eqn:Hm'; try lia.
      rewrite finish_53 by (try apply digits2_unique; lia).
      exists m', sh. split; [reflexivity|]. split; [lia|].
      right. left. repeat split; try lia. apply Hb. reflexivity.
  - (* rounded down *)
    rewrite Z.add_0_r.
    destruct q as [|m'|m'] eqn:Hm'; try lia.
    rewrite finish_53 by (try apply digits2_unique; lia).
    exists m', sh. split; [reflexivity|]. split; [lia|].
    left. repeat split; try lia.
    assert (Hnb : ~ (2 ^ sh < 2 * rem \/ 2 * rem = 2 ^ sh /\ Z.odd (Zpos m') = true))
      by (intros H; apply Hb in H; discriminate).
    clear -Hnb HP Hrem. destruct (Z.odd (Zpos m')); intuition (try discriminate; lia).
Qed.

Definition overflow_threshold : Z := 2 ^ 1024 - 2 ^ 970.

Ltac eval_pow c :=
  let v := eval vm_compute in c in change c with v in *.

Lemma binary_round_cases s p :
  (Zpos p < 2 ^ 53 /\
   exists m e, binary_round 53 1024 s p 0 = S754_finite s m e /\
               e <= 0 /\ Zpos m = Zpos p * 2 ^ (- e)) \/
  (2 ^ 53 <= Zpos p < overflow_threshold /\
   exists m e, binary_round 53 1024 s p 0 = S754_finite s m e /\
               1 <= e /\ 2 ^ 52 <= Zpos m) \/
  (overflow_threshold <= Zpos p /\
   binary_round 53 1024 s p 0 = S754_infinity s).
Proof.
  destruct (digits2_bounds p) as [Hl Hu].
  destruct (Z.le_gt_cases (Zpos (digits2_pos p)) 53) as [HD|HD].
  - left. split.
    + assert (2 ^ Zpos (digits2_pos p) <= 2 ^ 53) by (apply Z.pow_le_mono_r; lia).
      lia.
    + destruct (binary_round_small s p HD) as (m & Hm & Hv).
      exists m, (Zpos (digits2_pos p) - 53). split; [exact Hm|].
      split; [lia|]. rewrite Hv. f_equal. f_equal. lia.
  - right.
    destruct (binary_round_large s p ltac:(lia)) as (m & e & Hr & Hm & Hcases).
    set (D := Zpos (digits2_pos p)) in *.
    set (sh := D - 53) in *.
    assert (Hsh : 1 <= sh) by lia.
    assert (HP : 0 < 2 ^ sh) by (apply Z.pow_pos_nonneg; lia).
    pose proof (Z.div_mod (Zpos p) (2 ^ sh) ltac:(lia)) as Hdm.
    pose proof (Z.mod_pos_bound (Zpos p) (2 ^ sh) HP) as Hrem.
    set (q := Zpos p / 2 ^ sh) in *. set (rem := Zpos p mod 2 ^ sh) in *.
    assert (H53 : 2 ^ 53 <= Zpos p).
    { assert (2 ^ 53 <= 2 ^ (D - 1)) by (apply Z.pow_le_mono_r; lia). lia. }
    unfold overflow_threshold.
    destruct (Z.lt_trichotomy sh 971) as [Hlt | [Heq | Hgt]].
    + (* below the last binade *)
      left. split.
      * assert (2 ^ D <= 2 ^ 1023) by (apply Z.pow_le_mono_r; lia).
        split; [lia|].
        eval_pow (2 ^ 1023). eval_pow (2 ^ 1024). eval_pow (2 ^ 970). lia.
      * exists m, e. split; [|lia].
        rewrite Hr. destruct (Z.leb_spec e 971); [reflexivity|lia].
    + (* the last binade *)
      rewrite Heq in *.
      eval_pow (2 ^ 971). eval_pow (2 ^ 1024). eval_pow (2 ^ 970).
      eval_pow (2 ^ 53). eval_pow (2 ^ 52).
      destruct Hcases as [(Hmq & He & Hdown) | [(Hmq & He & Hup) | (Hmq & Hq & He & Hup)]].
      * left. split.
        -- split; [lia|].
           destruct (Z.eq_dec q 9007199254740991) as [Hq|Hq].
           ++ destruct Hdown as [Hdown | [_ Hodd]]; [lia|].
              rewrite Hq in Hodd. discriminate.
           ++ lia.
        -- exists m, e. split; [|lia].
           rewrite Hr, He. reflexivity.
      * left. split; [lia|].
        exists m, e. split; [|lia]. rewrite Hr, He. reflexivity.
      * right. split; [lia|]. rewrite Hr, He. reflexivity.
    + (* past the last binade *)
      right. split.
      * assert (2 ^ 1024 <= 2 ^ (D - 1)) by (apply Z.pow_le_mono_r; lia).
        assert (0 < 2 ^ 970) by (apply Z.pow_pos_nonneg; lia). lia.
      * rewrite Hr. destruct (Z.leb_spec e 971); [lia|reflexivity].
Qed.

End Binary64.

(** ** Properties of the chat font size *)

Module FontSizeFacts.
Import JsNumber FontSize.

(** An optionally minus-signed run of decimal digits. *)
Definition signed_digit_run (t : jsstring) : Prop :=
  exists ds : jsstring,
    ds <> [] /\ Forall (fun c => (48 <= c <= 57)%N) ds /\
    (t = ds \/ t = 45%N :: ds).


(** The integer a signed digit run writes. *)
Definition signed_value (t : jsstring) : Z :=
  match t with
  | c :: r =>
      if (c =? 45)%N then (- JsString.decimal_value r)%Z
      else JsString.decimal_value t
  | [] => 0%Z
  end.


(** [k] is the integer nearest to [m * 2 ^ e], ties towards positive
    infinity: [k - 1/2 <= m * 2 ^ e < k + 1/2], scaled to integers. *)
Definition nearest_integer (m e k : Z) : Prop :=
  ((2 * k - 1) * 2 ^ Z.max (- e) 0 <= 2 * m * 2 ^ Z.max e 0
   < (2 * k + 1) * 2 ^ Z.max (- e) 0)%Z.

Definition clamp (k : Z) : Z :=
  Z.min CHAT_FONT_SIZE_MAX (Z.max CHAT_FONT_SIZE_MIN k).

Lemma is_digit_range c : JsString.is_digit c = true <-> (48 <= c <= 57)%N.
Proof.
  unfold JsString.is_digit. by rewrite andb_true_iff, !N.leb_le.
Qed.

Lemma forallb_is_digit ds :
  forallb JsString.is_digit ds = true <-> Forall (fun c => (48 <= c <= 57)%N) ds.
Proof.
  rewrite forallb_forall, Forall_forall.
  split; intros H c Hc.
  - apply is_digit_range, H. by apply list_elem_of_In.
  - apply is_digit_range, H. by apply list_elem_of_In.
Qed.

Lemma digits_test r :
  negb (length r =? 0) && forallb JsString.is_digit r = true <->
  r <> [] /\ Forall (fun c => (48 <= c <= 57)%N) r.
Proof.
  rewrite andb_true_iff, forallb_is_digit, negb_true_iff, Nat.eqb_neq.
  destruct r; simpl; split; intros [? ?]; split; auto; congruence.
Qed.

Lemma test_signed_digits_spec t :
  test_signed_digits t = true <-> signed_digit_run t.
Proof.
  unfold test_signed_digits, signed_digit_run. split.
  - intros H.
    destruct t as [|c r].
    { simpl in H. discriminate. }
    destruct (N.eqb_spec c 45) as [->|Hc].
    + apply digits_test in H as [? ?]. exists r. auto.
    + apply digits_test in H as [? ?]. exists (c :: r). auto.
  - intros (ds & Hne & Hds & [-> | ->]).
    + destruct ds as [|c r]; [congruence|].
      assert (Hc : c <> 45%N).
      { apply Forall_cons in Hds as [Hc _]. simpl in Hc. clear - Hc. lia. }
      destruct (N.eqb_spec c 45) as [?|_]; [done|].
      by apply digits_test.
    + rewrite N.eqb_refl. by apply digits_test.
Qed.

Lemma round_half_up_nearest m e : nearest_integer m e (round_half_up m e).
Proof.
  unfold nearest_integer, round_half_up.
  destruct (Z.leb_spec 0 e) as [He|He].
  - rewrite (Z.max_r (- e) 0), (Z.max_l e 0) by lia.
    change (2 ^ 0)%Z with 1%Z. lia.
  - rewrite (Z.max_l (- e) 0), (Z.max_r e 0) by lia.
    change (2 ^ 0)%Z with 1%Z.
    replace (1 - e)%Z with (Z.succ (- e)) by lia.
    rewrite Z.pow_succ_r by lia.
    assert (Hp : (0 < 2 ^ (- e))%Z) by (apply Z.pow_pos_nonneg; lia).
    set (p := (2 ^ (- e))%Z) in *.
    pose proof (Z.div_mod (2 * m + p) (2 * p) ltac:(lia)) as Hdm.
    pose proof (Z.mod_pos_bound (2 * m + p) (2 * p) ltac:(lia)) as Hb.
    set (q := ((2 * m + p) / (2 * p))%Z) in *.
    nia.
Qed.

Lemma nearest_integer_unique m e k1 k2 :
  nearest_integer m e k1 -> nearest_integer m e k2 -> k1 = k2.
Proof.
  unfold nearest_integer. intros H1 H2.
  assert (Hp : (0 < 2 ^ Z.max (- e) 0)%Z) by (apply Z.pow_pos_nonneg; lia).
  nia.
Qed.

Lemma clamp_finite m e :
  Math_min (of_Z CHAT_FONT_SIZE_MAX)
    (Math_max (of_Z CHAT_FONT_SIZE_MIN) (Math_round (Finite m e)))
  = of_Z (clamp (round_half_up m e)).
Proof.
  unfold clamp, of_Z, CHAT_FONT_SIZE_MAX, CHAT_FONT_SIZE_MIN. simpl.
  generalize (round_half_up m e) as k. intros k.
  change (2 ^ 0)%Z with 1%Z. rewrite !Z.mul_1_r.
  repeat (match goal with
          | |- context [Z.ltb ?a ?b] => destruct (Z.ltb_spec a b)
          end; simpl; change (2 ^ 0)%Z with 1%Z; rewrite ?Z.mul_1_r);
    f_equal; lia.
Qed.


Lemma numericValue_string s :
  numericValue (VString s) =
  if test_signed_digits (JsString.trim s)
  then parseInt10 (JsString.trim s) else NaN.
Proof.
  simpl. destruct (JsString.trim s) as [|c r] eqn:Ht; [reflexivity|].
  simpl (length _ =? 0). cbv iota.
  by destruct (test_signed_digits (c :: r)).
Qed.

Lemma parseChatFontSize_finite v m e :
  numericValue v = Finite m e ->
  parseChatFontSize v = Some (of_Z (clamp (round_half_up m e))).
Proof.
  intros Hv. unfold parseChatFontSize.
  destruct v; try discriminate; rewrite Hv; simpl isFinite; cbv iota;
    simpl negb; cbv iota; by rewrite clamp_finite.
Qed.

Lemma parseChatFontSize_not_finite v :
  isFinite (numericValue v) = false -> parseChatFontSize v = None.
Proof.
  intros Hv. unfold parseChatFontSize. rewrite Hv. by destruct v.
Qed.

(** *** Digit runs *)

Lemma round_half_up_exact n m e :
  (e <= 0)%Z -> (m = n * 2 ^ (- e))%Z -> round_half_up m e = n.
Proof.
  intros He ->. unfold round_half_up.
  destruct (Z.leb_spec 0 e) as [H0|Hneg].
  - replace e with 0%Z by lia. simpl. lia.
  - replace (1 - e)%Z with (Z.succ (- e)) by lia.
    rewrite Z.pow_succ_r by lia.
    assert (Hp : (0 < 2 ^ (- e))%Z) by (apply Z.pow_pos_nonneg; lia).
    replace (2 * (n * 2 ^ (- e)) + 2 ^ (- e))%Z
      with ((1 + n * 2) * 2 ^ (- e))%Z by lia.
    rewrite Z.div_mul_cancel_r by lia.
    rewrite Z.div_add by lia. change (1 / 2)%Z with 0%Z. lia.
Qed.

Lemma round_half_up_integral m e :
  (0 <= e)%Z -> round_half_up m e = (m * 2 ^ e)%Z.
Proof.
  intros He. unfold round_half_up.
  by destruct (Z.leb_spec 0 e); [|lia].
Qed.

(** What [round_to_double] makes of an integer, through [Math.round]:
    the integer itself below [2 ^ 53], something at least as large in
    magnitude as [2 ^ 53] and of the same sign up to the overflow
    threshold, and no finite Number from there on. *)
Lemma round_to_double_cases n :
  ((Z.abs n < 2 ^ 53)%Z /\
   exists m e, round_to_double n = Finite m e /\ round_half_up m e = n) \/
  ((2 ^ 53 <= Z.abs n < Binary64.overflow_threshold)%Z /\
   exists m e, round_to_double n = Finite m e /\
               ((0 < n /\ 2 ^ 53 <= round_half_up m e)%Z \/
                (n < 0 /\ round_half_up m e <= - 2 ^ 53)%Z)) \/
  ((Binary64.overflow_threshold <= Z.abs n)%Z /\
   isFinite (round_to_double n) = false).
Proof.
  unfold round_to_double, binary_normalize.
  destruct n as [|p|p].
  - left. split; [done|]. by exists 0%Z, 0%Z.
  - destruct (Binary64.binary_round_cases false p)
      as [(Hp & m & e & -> & He & Hm) | [(Hp & m & e & -> & He & Hm) | (Hp & ->)]].
    + left. split; [done|]. exists (Z.pos m), e. split; [done|].
      by apply round_half_up_exact.
    + right. left. split; [done|]. exists (Z.pos m), e. split; [done|].
      left. split; [done|]. rewrite round_half_up_integral by lia.
      assert (2 ^ 1 <= 2 ^ e)%Z by (apply Z.pow_le_mono_r; lia).
      change (2 ^ 53)%Z with (2 ^ 52 * 2 ^ 1)%Z.
      apply Z.mul_le_mono_nonneg; lia.
    + right. right. by split.
  - destruct (Binary64.binary_round_cases true p)
      as [(Hp & m & e & -> & He & Hm) | [(Hp & m & e & -> & He & Hm) | (Hp & ->)]].
    + left. split; [done|]. exists (Z.neg m), e. split; [done|].
      apply round_half_up_exact; [done|]. lia.
    + right. left. split; [done|]. exists (Z.neg m), e. split; [done|].
      right. split; [done|]. rewrite round_half_up_integral by lia.
      assert (2 ^ 1 <= 2 ^ e)%Z by (apply Z.pow_le_mono_r; lia).
      assert (2 ^ 52 * 2 ^ 1 <= Z.pos m * 2 ^ e)%Z
        by (apply Z.mul_le_mono_nonneg; lia).
      change (2 ^ 53)%Z with (2 ^ 52 * 2 ^ 1)%Z. lia.
    + right. right. by split.
Qed.

Lemma round_to_double_finite n :
  isFinite (round_to_double n) = true <->
  (Z.abs n < Binary64.overflow_threshold)%Z.
Proof.
  assert (Hlt : (2 ^ 53 < Binary64.overflow_threshold)%Z) by done.
  destruct (round_to_double_cases n)
    as [(Hn & m & e & -> & _) | [(Hn & m & e & -> & _) | (Hn & ->)]];
    simpl; split; try done; lia.
Qed.

Lemma round_to_double_clamp n m e :
  round_to_double n = Finite m e -> clamp (round_half_up m e) = clamp n.
Proof.
  intros Hr.
  destruct (round_to_double_cases n)
    as [(Hn & m' & e' & Hr' & Hv) | [(Hn & m' & e' & Hr' & Hv) | (Hn & Hinf)]].
  - rewrite Hr in Hr'. injection Hr' as <- <-. by rewrite Hv.
  - rewrite Hr in Hr'. injection Hr' as <- <-.
    unfold clamp, CHAT_FONT_SIZE_MAX, CHAT_FONT_SIZE_MIN.
    change (2 ^ 53)%Z with 9007199254740992%Z in *. lia.
  - by rewrite Hr in Hinf.
Qed.

Lemma not_trimmed c : (45 <= c <= 57)%N -> JsString.is_trimmed_char c = false.
Proof.
  intros Hc. apply not_true_is_false. intros H.
  unfold JsString.is_trimmed_char, JsString.is_white_space,
    JsString.is_line_terminator in H.
  rewrite !orb_true_iff, !andb_true_iff, !N.eqb_eq, !N.leb_le in H. lia.
Qed.

Lemma digit_prefix_all ds :
  Forall (fun c => (48 <= c <= 57)%N) ds -> digit_prefix ds = ds.
Proof.
  induction 1 as [|c ds Hc _ IH]; [done|]. simpl.
  by rewrite (proj2 (is_digit_range c) Hc), IH.
Qed.

Lemma trimStart_head c r :
  (45 <= c <= 57)%N -> JsString.trimStart (c :: r) = c :: r.
Proof.
  intros Hc. change (JsString.trimStart (c :: r))
    with (if JsString.is_trimmed_char c then JsString.trimStart r else c :: r).
  by rewrite not_trimmed.
Qed.

Lemma parseInt10_digit_run t :
  signed_digit_run t -> parseInt10 t = round_to_double (signed_value t).
Proof.
  intros (ds & Hne & Hds & [-> | ->]).
  - destruct ds as [|c r]; [done|].
    assert (Hc : (48 <= c <= 57)%N) by (by apply Forall_cons in Hds as [? _]).
    unfold parseInt10, signed_value. rewrite trimStart_head by lia.
    destruct (N.eqb_spec c 45) as [?|_]; [lia|].
    destruct (N.eqb_spec c 43) as [?|_]; [lia|].
    rewrite digit_prefix_all by done. f_equal. lia.
  - unfold parseInt10, signed_value. rewrite trimStart_head by lia.
    rewrite N.eqb_refl.
    rewrite digit_prefix_all by done.
    destruct ds as [|c r]; [done|]. f_equal; lia.
Qed.


(** *** Some values *)

Example parse_padded_digits :
  parseChatFontSize (VString (js " 16 ")) = Some (of_Z 16).
Proof. reflexivity. Qed.

Example parse_negative_digits :
  parseChatFontSize (VString (js "-3")) = Some (of_Z 10).
Proof. reflexivity. Qed.

Example parse_many_digits :
  parseChatFontSize (VString (js "12345678901234567890123")) = Some (of_Z 24).
Proof. reflexivity. Qed.

Example parse_decimal_point :
  parseChatFontSize (VString (js "15.5")) = None.
Proof. reflexivity. Qed.

Example parse_plus_sign :
  parseChatFontSize (VString (js "+12")) = None.
Proof. reflexivity. Qed.

Example parse_blank : parseChatFontSize (VString (js "   ")) = None.
Proof. reflexivity. Qed.

(** 14.5 rounds up, 13.5 rounds up, -0.5 rounds to zero. *)
Example parse_half :
  parseChatFontSize (VNumber (Finite 29 (-1))) = Some (of_Z 15) /\
  parseChatFontSize (VNumber (Finite 27 (-1))) = Some (of_Z 14) /\
  parseChatFontSize (VNumber (Finite (-1) (-1))) = Some (of_Z 10).
Proof. repeat split. Qed.

Example parse_not_finite :
  parseChatFontSize (VNumber NaN) = None /\
  parseChatFontSize (VNumber (Infinity false)) = None /\
  parseChatFontSize (VBoolean true) = None.
Proof. repeat split. Qed.



Lemma numericValue_digit_run s :
  signed_digit_run (JsString.trim s) ->
  numericValue (VString s) = round_to_double (signed_value (JsString.trim s)).
Proof.
  intros Hs. rewrite numericValue_string.
  rewrite (proj2 (test_signed_digits_spec _) Hs).
  by apply parseInt10_digit_run.
Qed.





End FontSizeFacts.

(** ** Properties of the image attachments *)

Module ImageFacts.
Import ChatInput Samples.

Definition size_ok (img : AttachedImage) : Prop :=
  (sourceSize img <= MAX_IMAGE_SIZE_BYTES)%Z.

Definition within_limits (images : list AttachedImage) : Prop :=
  length images <= MAX_IMAGE_COUNT /\ Forall size_ok images.

(** The lists that can come to be stored.  A handler runs against the
    list [attachedImages p] of the render it closes over, which was
    the stored list at that render; whatever it hands to
    [onAttachedImagesChange] becomes the stored list.  Handlers
    suspend on [await], so a handler may still run against an older
    list when another has already replaced it. *)
Inductive stored : list AttachedImage -> Prop :=
| stored_initially : stored []
| stored_paste randomUUID p e images :
    stored (attachedImages p) ->
    OnAttachedImagesChange images ∈ handlePaste randomUUID p e ->
    stored images
| stored_drop randomUUID p e images :
    stored (attachedImages p) ->
    OnAttachedImagesChange images ∈ handleDrop randomUUID p e ->
    stored images
| stored_remove p id0 images :
    stored (attachedImages p) ->
    OnAttachedImagesChange images ∈ removeImage (attachedImages p) id0 ->
    stored images.

Lemma addImage_change attached image images :
  OnAttachedImagesChange images ∈ addImage attached image ->
  images = attached ++ [image] /\ length attached < MAX_IMAGE_COUNT.
Proof.
  unfold addImage.
  destruct (Nat.leb_spec MAX_IMAGE_COUNT (length attached)) as [Hle|Hlt].
  - intros H. by apply elem_of_nil in H.
  - intros H. apply list_elem_of_singleton in H. injection H as ->. auto.
Qed.

Lemma processImageFiles_from_cons randomUUID attached addedCount file rest :
  processImageFiles_from randomUUID attached addedCount (file :: rest) =
  if MAX_IMAGE_COUNT <=? length attached + addedCount then
    [NewNotice notice_max_images]
  else if (MAX_IMAGE_SIZE_BYTES <? size file)%Z then
    NewNotice notice_too_large
      :: processImageFiles_from randomUUID attached addedCount rest
  else
    match fileToBase64 file with
    | Some base64 =>
        addImage attached
          {| id := randomUUID addedCount;
             data := base64;
             mimeType := type file;
             sourceSize := size file |}
          ++ processImageFiles_from randomUUID attached (addedCount + 1) rest
    | None =>
        ConsoleError :: NewNotice notice_failed
          :: processImageFiles_from randomUUID attached addedCount rest
    end.
Proof. reflexivity. Qed.

Lemma processImageFiles_from_change randomUUID attached files :
  forall addedCount images,
    OnAttachedImagesChange images
      ∈ processImageFiles_from randomUUID attached addedCount files ->
    exists image,
      images = attached ++ [image] /\
      length attached < MAX_IMAGE_COUNT /\ size_ok image.
Proof.
  induction files as [|file rest IH]; intros addedCount images.
  - intros H. by apply elem_of_nil in H.
  - rewrite processImageFiles_from_cons.
    destruct (MAX_IMAGE_COUNT <=? length attached + addedCount).
    { intros H. apply list_elem_of_singleton in H. discriminate. }
    destruct (Z.ltb_spec MAX_IMAGE_SIZE_BYTES (size file)) as [Hbig|Hfit].
    { intros H. apply elem_of_cons in H as [H|H]; [discriminate|eauto]. }
    destruct (fileToBase64 file) as [base64|].
    + intros H. apply elem_of_app in H as [H|H]; [|eauto].
      apply addImage_change in H as [-> Hlen].
      eexists. split; [reflexivity|]. split; [done|]. exact Hfit.
    + intros H.
      apply elem_of_cons in H as [H|H]; [discriminate|].
      apply elem_of_cons in H as [H|H]; [discriminate|eauto].
Qed.

Lemma handlePaste_change randomUUID p e images :
  OnAttachedImagesChange images ∈ handlePaste randomUUID p e ->
  exists image,
    images = attachedImages p ++ [image] /\
    length (attachedImages p) < MAX_IMAGE_COUNT /\ size_ok image.
Proof.
  unfold handlePaste.
  destruct (clipboard_items e) as [items|];
    [|intros H; by apply elem_of_nil in H].
  destruct (length (clipboard_image_files items) =? 0);
    [intros H; by apply elem_of_nil in H|].
  intros H. apply elem_of_cons in H as [H|H]; [discriminate|].
  destruct (supportsImages p); simpl in H.
  - by apply processImageFiles_from_change in H.
  - apply list_elem_of_singleton in H. discriminate.
Qed.

Lemma handleDrop_change randomUUID p e images :
  OnAttachedImagesChange images ∈ handleDrop randomUUID p e ->
  exists image,
    images = attachedImages p ++ [image] /\
    length (attachedImages p) < MAX_IMAGE_COUNT /\ size_ok image.
Proof.
  unfold handleDrop.
  intros H. apply elem_of_cons in H as [H|H]; [discriminate|].
  apply elem_of_cons in H as [H|H]; [discriminate|].
  destruct (dataTransfer_files e) as [files|];
    [|by apply elem_of_nil in H].
  destruct (length files =? 0); [by apply elem_of_nil in H|].
  cbv zeta in H.
  destruct (length (filter _ files) =? 0); [by apply elem_of_nil in H|].
  apply elem_of_cons in H as [H|H]; [discriminate|].
  destruct (supportsImages p); simpl in H.
  - by apply processImageFiles_from_change in H.
  - apply list_elem_of_singleton in H. discriminate.
Qed.

Lemma within_limits_snoc attached image :
  within_limits attached -> length attached < MAX_IMAGE_COUNT ->
  size_ok image -> within_limits (attached ++ [image]).
Proof.
  intros [Hlen Hall] Hlt Hok. split.
  - rewrite length_app. simpl. lia.
  - apply Forall_app. split; [done|]. by apply Forall_singleton.
Qed.

Lemma within_limits_filter (P : AttachedImage -> Prop)
    `{!forall x, Decision (P x)} attached :
  within_limits attached -> within_limits (filter P attached).
Proof.
  intros [Hlen Hall]. split.
  - pose proof (length_filter P attached). lia.
  - apply Forall_forall. intros img [_ Hin]%list_elem_of_filter.
    by apply (proj1 (Forall_forall _ _) Hall).
Qed.

(** The invariant rule of [stored]: a property of the empty list that
    survives appending an image of fitting size to a list that is not
    full, and removing images, holds of every stored list. *)
Lemma stored_invariant (P : list AttachedImage -> Prop) :
  P [] ->
  (forall attached image,
     P attached -> length attached < MAX_IMAGE_COUNT -> size_ok image ->
     P (attached ++ [image])) ->
  (forall attached id0,
     P attached -> P (filter (fun img => id img <> id0) attached)) ->
  forall images, stored images -> P images.
Proof.
  intros Hinit Hadd Hremove.
  induction 1 as [|u p e images _ IH H|u p e images _ IH H|p id0 images _ IH H].
  - exact Hinit.
  - apply handlePaste_change in H as (image & -> & Hlt & Hok). by apply Hadd.
  - apply handleDrop_change in H as (image & -> & Hlt & Hok). by apply Hadd.
  - apply list_elem_of_singleton in H. injection H as ->. by apply Hremove.
Qed.

Lemma within_limits_nil : within_limits [].
Proof. split; [simpl; lia | constructor]. Qed.

(** C1: whatever sequence of paste and drop batches (and removals) has
    been handled, the stored list of attached images holds at most
    [MAX_IMAGE_COUNT] = 10 images, and each of them was read from a
    file of at most [MAX_IMAGE_SIZE_BYTES] = 5 MiB. *)
Theorem stored_within_limits (images : list AttachedImage) :
  stored images ->
  length images <= 10 /\
  Forall (fun img => (sourceSize img <= 5 * 1024 * 1024)%Z) images.
Proof.
  revert images. apply stored_invariant.
  - apply within_limits_nil.
  - intros attached image. apply within_limits_snoc.
  - intros attached id0. apply within_limits_filter.
Qed.

Lemma stored_png_image : stored [png_image].
Proof.
  apply (stored_paste uuid idle (paste_of [png_2mb])).
  - apply stored_initially.
  - apply list_elem_of_further, list_elem_of_here.
Defined.

Lemma stored_within_limits_witness :
  length [png_image] <= 10 /\
  Forall (fun img => (sourceSize img <= 5 * 1024 * 1024)%Z) [png_image].
Proof. apply (stored_within_limits [png_image]), stored_png_image. Defined.

(** Operations handled one after the other, each against the list
    stored when it starts. *)
Inductive operation :=
| Paste (randomUUID : nat -> jsstring) (supported : bool) (e : ClipboardEvent)
| Drop (randomUUID : nat -> jsstring) (supported : bool) (e : DragEvent)
| Remove (id0 : jsstring).

Definition render (supported : bool) (images : list AttachedImage) : Props :=
  {| isSending := isSending idle;
     isSessionReady := isSessionReady idle;
     isRestoringSession := isRestoringSession idle;
     mentions := mentions idle;
     slashCommands := slashCommands idle;
     supportsImages := supported;
     agentId := agentId idle;
     inputValue := inputValue idle;
     attachedImages := images;
     sendMessageShortcut := sendMessageShortcut idle |}.

Definition perform (images : list AttachedImage) (op : operation) : list effect :=
  match op with
  | Paste u supported e => handlePaste u (render supported images) e
  | Drop u supported e => handleDrop u (render supported images) e
  | Remove id0 => removeImage images id0
  end.

(** Every value the stored list takes while the operations run. *)
Fixpoint history (images : list AttachedImage) (ops : list operation)
    : list (list AttachedImage) :=
  match ops with
  | [] => [images]
  | op :: rest =>
      let changes := image_changes (perform images op) in
      images :: changes ++ history (List.last changes images) rest
  end.

Lemma elem_of_image_changes trace images :
  images ∈ image_changes trace <-> OnAttachedImagesChange images ∈ trace.
Proof.
  unfold image_changes. rewrite list_elem_of_omap. split.
  - intros (e & He & Heq). destruct e; try discriminate.
    by injection Heq as ->.
  - intros H. by exists (OnAttachedImagesChange images).
Qed.

Lemma perform_stored images op changed :
  stored images -> changed ∈ image_changes (perform images op) ->
  stored changed.
Proof.
  intros Hs Hc. apply elem_of_image_changes in Hc.
  destruct op as [u supported e|u supported e|id0]; simpl in Hc.
  - by apply (stored_paste u (render supported images) e).
  - by apply (stored_drop u (render supported images) e).
  - by apply (stored_remove (render true images) id0).
Qed.

Lemma last_elem_of {A} (l : list A) (d : A) :
  List.last l d = d \/ List.last l d ∈ l.
Proof.
  induction l as [|x l IH]; [by left|].
  destruct l as [|y l]; [right; apply list_elem_of_here|].
  change (List.last (x :: y :: l) d) with (List.last (y :: l) d).
  destruct IH as [IH|IH]; [by left|].
  right. by apply list_elem_of_further.
Qed.

(** Every value the list takes in a sequential run, from the empty list
    on, is a [stored] list. *)
Lemma history_stored ops :
  forall images, stored images -> Forall stored (history images ops).
Proof.
  induction ops as [|op rest IH]; intros images Hs; simpl.
  - by constructor.
  - constructor; [done|].
    apply Forall_app. split.
    + apply Forall_forall. intros changed Hc.
      by apply (perform_stored images op).
    + apply IH.
      destruct (last_elem_of (image_changes (perform images op)) images)
        as [-> | Hl]; [done|].
      by apply (perform_stored images op).
Qed.

(** *** Agents without image support *)

(** What the clipboard or the drop carries that the handlers take for
    image files. *)
Definition dropped_image_files (files : list File) : list File :=
  filter (fun file => is_supported_image_type (type file) = true) files.

Lemma length_nonzero {A} (l : list A) : l <> [] -> (length l =? 0) = false.
Proof. destruct l; [congruence | reflexivity]. Qed.

Lemma handlePaste_unsupported randomUUID p e items :
  supportsImages p = false ->
  clipboard_items e = Some items ->
  clipboard_image_files items <> [] ->
  handlePaste randomUUID p e =
  [PreventDefault; NewNotice notice_not_supported].
Proof.
  intros Hs He Hne. unfold handlePaste.
  by rewrite He, (length_nonzero _ Hne), Hs.
Qed.

Lemma handleDrop_unsupported randomUUID p e files :
  supportsImages p = false ->
  dataTransfer_files e = Some files ->
  dropped_image_files files <> [] ->
  handleDrop randomUUID p e =
  [SetDragCounter 0; SetIsDraggingOver false;
   PreventDefault; NewNotice notice_not_supported].
Proof.
  intros Hs He Hne. unfold handleDrop. rewrite He.
  assert (Hf : files <> []).
  { intros ->. by apply Hne. }
  rewrite (length_nonzero _ Hf). cbv zeta.
  fold (dropped_image_files files).
  by rewrite (length_nonzero _ Hne), Hs.
Qed.

Lemma is_supported_image_type_spec ty :
  is_supported_image_type ty = true <-> ty ∈ SUPPORTED_IMAGE_TYPES.
Proof.
  unfold is_supported_image_type. rewrite existsb_exists. split.
  - intros (ty' & Hin & Heq). apply bool_decide_eq_true in Heq. subst ty'.
    by apply list_elem_of_In.
  - intros Hin. exists ty. split; [by apply list_elem_of_In|].
    by apply bool_decide_eq_true.
Qed.

(** A clipboard item of a whitelisted type that gives a file makes the
    paste handler find an image file. *)
Lemma clipboard_image_files_item items item file :
  item ∈ items ->
  item_type item ∈ SUPPORTED_IMAGE_TYPES -> getAsFile item = Some file ->
  clipboard_image_files items <> [].
Proof.
  intros Hin Hty Hfile Hnil.
  assert (Hf : file ∈ clipboard_image_files items).
  { unfold clipboard_image_files. apply list_elem_of_omap.
    exists item. split; [done|].
    by rewrite (proj2 (is_supported_image_type_spec _) Hty). }
  rewrite Hnil in Hf. by apply elem_of_nil in Hf.
Qed.

(** A dropped file of a whitelisted type makes the drop handler find
    an image file. *)
Lemma dropped_image_files_file files file :
  file ∈ files -> type file ∈ SUPPORTED_IMAGE_TYPES ->
  dropped_image_files files <> [].
Proof.
  intros Hin Hty Hnil.
  assert (Hf : file ∈ dropped_image_files files).
  { unfold dropped_image_files. apply list_elem_of_filter.
    split; [by apply is_supported_image_type_spec | done]. }
  rewrite Hnil in Hf. by apply elem_of_nil in Hf.
Qed.

(** The trace of a paste or of a drop that carries at least one
    whitelisted image file: a paste one of whose clipboard items has a
    MIME type of the whitelist and gives a file, a drop one of whose
    files has a MIME type of the whitelist; whatever else the event
    carries. *)
Inductive image_event_trace (randomUUID : nat -> jsstring) (p : Props)
    : list effect -> Prop :=
| trace_paste e items item file :
    clipboard_items e = Some items ->
    item ∈ items ->
    item_type item ∈ SUPPORTED_IMAGE_TYPES ->
    getAsFile item = Some file ->
    image_event_trace randomUUID p (handlePaste randomUUID p e)
| trace_drop e files file :
    dataTransfer_files e = Some files ->
    file ∈ files ->
    type file ∈ SUPPORTED_IMAGE_TYPES ->
    image_event_trace randomUUID p (handleDrop randomUUID p e).

(** C4: when the agent does not support images, a paste or a drop
    that carries at least one whitelisted image file (a clipboard item
    of a whitelisted type that gives a file; a dropped file of a
    whitelisted type) attaches nothing, emits the "not supported"
    notice exactly once and no other notice, whatever the number and
    the sizes of the files, and prevents the event's default
    handling. *)
Theorem unsupported_images_rejected randomUUID (p : Props) (trace : list effect) :
  supportsImages p = false ->
  image_event_trace randomUUID p trace ->
  image_changes trace = [] /\
  notices trace = [notice_not_supported] /\
  PreventDefault ∈ trace /\
  forall s, st_attachedImages (run s trace) = st_attachedImages s.
Proof.
  intros Hs [e items item file He Hin Hty Hfile | e files file He Hin Hty].
  - pose proof (clipboard_image_files_item _ _ _ Hin Hty Hfile) as Hne.
    rewrite (handlePaste_unsupported _ _ _ _ Hs He Hne).
    repeat split. apply list_elem_of_here.
  - pose proof (dropped_image_files_file _ _ Hin Hty) as Hne.
    rewrite (handleDrop_unsupported _ _ _ _ Hs He Hne).
    repeat split. do 2 apply list_elem_of_further. apply list_elem_of_here.
Qed.

Definition no_images : Props := render false [].

(** A paste of a text item, a 2 MB PNG and a 7 MB JPEG, and a drop of
    a PNG. *)
Lemma unsupported_images_rejected_witness :
  (let trace :=
     handlePaste uuid no_images
       {| clipboard_items :=
            Some [{| item_type := js "text/plain"; getAsFile := None |};
                  file_item png_2mb; file_item jpeg_7mb] |} in
   image_changes trace = [] /\
   notices trace = [notice_not_supported] /\
   PreventDefault ∈ trace /\
   forall s, st_attachedImages (run s trace) = st_attachedImages s) /\
  (let trace := handleDrop uuid no_images (drop_of [png_2mb]) in
   image_changes trace = [] /\
   notices trace = [notice_not_supported] /\
   PreventDefault ∈ trace /\
   forall s, st_attachedImages (run s trace) = st_attachedImages s).
Proof.
  split.
  - apply (unsupported_images_rejected uuid no_images); [reflexivity|].
    eapply (trace_paste uuid no_images _ _ (file_item png_2mb) png_2mb).
    + reflexivity.
    + apply list_elem_of_further, list_elem_of_here.
    + apply list_elem_of_here.
    + reflexivity.
  - apply (unsupported_images_rejected uuid no_images); [reflexivity|].
    eapply (trace_drop uuid no_images (drop_of [png_2mb]) _ png_2mb).
    + reflexivity.
    + apply list_elem_of_here.
    + apply list_elem_of_here.
Defined.

(** *** Oversized files *)

(** A file the loop turns into an image: within the byte cap, and
    read without failure. *)
Definition accepted (file : File) : bool :=
  negb (MAX_IMAGE_SIZE_BYTES <? size file)%Z
  && bool_decide (is_Some (fileToBase64 file)).

(** The number of images a run over [files] adds when the count cap
    does not stop it. *)
Definition added (files : list File) : nat :=
  length (List.filter accepted files).

Lemma addImage_below attached image :
  length attached < MAX_IMAGE_COUNT ->
  addImage attached image = [OnAttachedImagesChange (attached ++ [image])].
Proof.
  intros Hlt. unfold addImage.
  by destruct (Nat.leb_spec MAX_IMAGE_COUNT (length attached)); [lia|].
Qed.

(** While the cap is not reached the loop goes through the files one
    by one. *)
Lemma processImageFiles_from_app randomUUID attached before :
  forall addedCount rest,
    length attached + addedCount + added before < MAX_IMAGE_COUNT ->
    processImageFiles_from randomUUID attached addedCount (before ++ rest) =
    processImageFiles_from randomUUID attached addedCount before
    ++ processImageFiles_from randomUUID attached
         (addedCount + added before) rest.
Proof.
  induction before as [|file before IH]; intros addedCount rest Hlt.
  - simpl. by rewrite Nat.add_0_r.
  - rewrite <- app_comm_cons, !processImageFiles_from_cons.
    unfold added in *. simpl in Hlt. unfold accepted in Hlt at 1.
    destruct (Nat.leb_spec MAX_IMAGE_COUNT (length attached + addedCount))
      as [Hge|_]; [exfalso; lia|].
    destruct (MAX_IMAGE_SIZE_BYTES <? size file)%Z eqn:Hsz; simpl in Hlt.
    + rewrite IH by done. simpl. unfold accepted at 2. by rewrite Hsz.
    + destruct (fileToBase64 file) as [base64|] eqn:Hb64.
      * rewrite bool_decide_eq_true_2 in Hlt by done. simpl in Hlt.
        rewrite IH by lia. simpl. unfold accepted at 2.
        rewrite Hsz, Hb64, bool_decide_eq_true_2 by done. simpl.
        rewrite <- app_assoc. do 3 f_equal. lia.
      * rewrite bool_decide_eq_false_2 in Hlt by (by intros [? ?]).
        rewrite IH by done. simpl. unfold accepted at 2.
        rewrite Hsz, Hb64, bool_decide_eq_false_2 by (by intros [? ?]).
        done.
Qed.

Definition size_limit_notices (trace : list effect) : list jsstring :=
  List.filter (JsString.eqb notice_too_large) (notices trace).

Definition oversized (files : list File) : list File :=
  List.filter (fun file => (MAX_IMAGE_SIZE_BYTES <? size file)%Z) files.

(** Ten attached images: the list is full. *)
Definition full : list AttachedImage := repeat png_image 10.

Lemma paste_png_below attached :
  length attached < MAX_IMAGE_COUNT ->
  handlePaste uuid (render true attached) (paste_of [png_2mb]) =
  [PreventDefault; OnAttachedImagesChange (attached ++ [png_image])].
Proof.
  intros Hlt.
  change (handlePaste _ _ _) with
    (PreventDefault :: processImageFiles_from uuid attached 0 [png_2mb]).
  rewrite processImageFiles_from_cons.
  destruct (Nat.leb_spec MAX_IMAGE_COUNT (length attached + 0));
    [exfalso; lia|].
  change (MAX_IMAGE_SIZE_BYTES <? size png_2mb)%Z with false. cbv iota.
  change (fileToBase64 png_2mb) with (Some (data png_image)). cbv iota.
  rewrite addImage_below by done. by rewrite app_nil_r.
Qed.

Lemma stored_repeat_png n : n <= MAX_IMAGE_COUNT -> stored (repeat png_image n).
Proof.
  induction n as [|n IH]; intros Hn; [apply stored_initially|].
  apply (stored_paste uuid (render true (repeat png_image n))
           (paste_of [png_2mb])); [apply IH; lia|].
  rewrite paste_png_below by (rewrite repeat_length; lia).
  replace (repeat png_image (S n)) with (repeat png_image n ++ [png_image]).
  - apply list_elem_of_further, list_elem_of_here.
  - clear. induction n as [|n IH]; [reflexivity|]. simpl. by rewrite IH.
Qed.

(** C5, as stated, fails: with ten images attached, a paste of one
    7 MB JPEG emits the image-count notice and stops; the oversized
    file gets no size-limit notice. *)
Lemma oversized_at_count_cap_unnoticed :
  let trace := handlePaste uuid (render true full) (paste_of [jpeg_7mb]) in
  stored full /\
  notices trace = [notice_max_images] /\
  length (size_limit_notices trace) <> length (oversized [jpeg_7mb]).
Proof.
  split; [apply stored_repeat_png; unfold MAX_IMAGE_COUNT; lia|].
  split; [reflexivity|]. vm_compute. discriminate.
Qed.

(** C5, amended: in a batch with image support enabled, a file larger
    than [MAX_IMAGE_SIZE_BYTES] that the loop reaches before the
    image-count cap stops the batch (the attached count plus the
    images added so far in the batch is below [MAX_IMAGE_COUNT]) is
    answered by exactly one size-limit notice and not attached, and
    the loop goes on with the files after it.  In particular a paste
    of one 2 MB PNG and one 7 MB JPEG onto an empty attachment list
    leaves exactly the PNG attached and emits one size-limit notice,
    for the JPEG. *)
Theorem oversized_file_rejected randomUUID attached before file after :
  (MAX_IMAGE_SIZE_BYTES < size file)%Z ->
  length attached + added before < MAX_IMAGE_COUNT ->
  processImageFiles randomUUID attached (before ++ file :: after) =
    processImageFiles randomUUID attached before
    ++ NewNotice notice_too_large
    :: processImageFiles_from randomUUID attached (added before) after
  /\
  let trace :=
    handlePaste randomUUID (render true []) (paste_of [png_2mb; jpeg_7mb]) in
  notices trace = [notice_too_large] /\
  forall s,
    st_attachedImages (run s trace) = [png_image_with (randomUUID 0)].
Proof.
  intros Hbig Hlt. split; [|by split].
  unfold processImageFiles.
  rewrite processImageFiles_from_app by (simpl; lia).
  rewrite processImageFiles_from_cons. simpl (0 + _).
  destruct (Nat.leb_spec MAX_IMAGE_COUNT (length attached + added before))
    as [Hge|_]; [exfalso; lia|].
  by destruct (Z.ltb_spec MAX_IMAGE_SIZE_BYTES (size file)); [|lia].
Qed.

Lemma oversized_file_rejected_witness :
  processImageFiles uuid [] ([png_2mb] ++ jpeg_7mb :: []) =
    processImageFiles uuid [] [png_2mb]
    ++ NewNotice notice_too_large
    :: processImageFiles_from uuid [] (added [png_2mb]) []
  /\
  let trace :=
    handlePaste uuid (render true []) (paste_of [png_2mb; jpeg_7mb]) in
  notices trace = [notice_too_large] /\
  forall s, st_attachedImages (run s trace) = [png_image_with (uuid 0)].
Proof.
  apply (oversized_file_rejected uuid [] [png_2mb] jpeg_7mb []).
  - reflexivity.
  - vm_compute. lia.
Defined.

End ImageFacts.

(** ** Properties of submit and of the per-agent reset *)

Module SubmitFacts.
Import ChatInput Samples.

(** There is something to send: non-blank text, or an image. *)
Definition has_content (p : Props) : Prop :=
  JsString.trim (inputValue p) <> [] \/ attachedImages p <> [].

Definition submit_allowed (p : Props) : Prop :=
  has_content p /\ isSessionReady p = true /\ isRestoringSession p = false.

(** The trace calls [onSendMessage]. *)
Definition sends (trace : list effect) : Prop :=
  exists content images, OnSendMessage content images ∈ trace.

(** The images [onSendMessage] is given; [undefined] stands for
    none. *)
Definition sent_images (images : option (list ImagePromptContent))
    : list ImagePromptContent :=
  default [] images.

Lemma empty_check p :
  negb (JsString.truthy (JsString.trim (inputValue p)))
  && (length (attachedImages p) =? 0) = false <-> has_content p.
Proof.
  unfold has_content.
  destruct (JsString.trim (inputValue p)) as [|c t];
    destruct (attachedImages p) as [|i l]; simpl; intuition congruence.
Qed.

Lemma isButtonDisabled_false p :
  isSending p = false ->
  isButtonDisabled p = false <-> submit_allowed p.
Proof.
  intros Hs. unfold isButtonDisabled, submit_allowed, has_content.
  rewrite Hs. simpl.
  destruct (isSessionReady p), (isRestoringSession p);
    destruct (JsString.trim (inputValue p)) as [|c t];
    destruct (attachedImages p) as [|i l]; simpl; intuition congruence.
Qed.

Lemma handleSendOrStop_content p :
  isSending p = false -> has_content p ->
  handleSendOrStop p =
  [OnInputChange []; OnAttachedImagesChange [];
   SetHintText None; SetCommandText [];
   OnSendMessage (JsString.trim (inputValue p))
     (if 0 <? length (map to_prompt (attachedImages p))
      then Some (map to_prompt (attachedImages p)) else None)].
Proof.
  intros Hs Hc. unfold handleSendOrStop. rewrite Hs.
  by rewrite (proj2 (empty_check p) Hc).
Qed.

Lemma handleSendOrStop_empty p :
  isSending p = false ->
  JsString.trim (inputValue p) = [] -> attachedImages p = [] ->
  handleSendOrStop p = [].
Proof.
  intros Hs Ht Hi. unfold handleSendOrStop. by rewrite Hs, Ht, Hi.
Qed.

Lemma handleSendOrStop_sends p :
  isSending p = false -> sends (handleSendOrStop p) <-> has_content p.
Proof.
  intros Hs. split.
  - intros (c & i & H). apply empty_check.
    unfold handleSendOrStop in H. rewrite Hs in H.
    destruct (negb _ && _); [by apply elem_of_nil in H | done].
  - intros Hc. rewrite handleSendOrStop_content by done.
    eexists _, _. do 4 apply list_elem_of_further. apply list_elem_of_here.
Qed.

(** Membership of an effect in a trace built from conses and
    appends of known effects, none of which it equals. *)
Ltac absent H :=
  repeat first
    [ apply elem_of_nil in H; destruct H
    | apply elem_of_cons in H as [H|H]; [discriminate H|]
    | apply elem_of_app in H as [H|H]
    | match type of H with
      | _ ∈ (if ?b then _ else _) => destruct b
      | _ ∈ match ?o with Some _ => _ | None => _ end => destruct o
      end ].

Lemma handleDropdownKeyPress_no_send p e :
  ~ sends (fst (handleDropdownKeyPress p e)).
Proof.
  intros (c & i & H). unfold handleDropdownKeyPress in H.
  repeat match type of H with
         | context [if ?b then (_, _) else _] => destruct b; simpl in H
         end;
    unfold handleSelectSlashCommand, selectMention, setTextAndFocus in H;
    absent H.
Qed.

Lemma handleKeyDown_sends p e :
  isSending p = false -> sends (handleKeyDown p e) -> submit_allowed p.
Proof.
  intros Hs H. unfold handleKeyDown in H.
  pose proof (handleDropdownKeyPress_no_send p e) as Hd.
  destruct (handleDropdownKeyPress p e) as [effects handled].
  simpl in Hd. destruct handled; [done|].
  destruct H as (c & i & H).
  apply elem_of_app in H as [H|H]; [by destruct Hd; exists c, i|].
  destruct (key_is e "Enter" && negb (isComposing e));
    [|by apply elem_of_nil in H].
  match type of H with
  | _ ∈ (if ?b then _ else _) => destruct b; [|by apply elem_of_nil in H]
  end.
  apply elem_of_cons in H as [H|H]; [discriminate|].
  destruct (isButtonDisabled p) eqn:Hdis; simpl in H;
    [by apply elem_of_nil in H|].
  by apply isButtonDisabled_false.
Qed.

Lemma clickSendButton_sends p :
  isSending p = false -> sends (clickSendButton p) <-> submit_allowed p.
Proof.
  intros Hs. unfold clickSendButton.
  destruct (isButtonDisabled p) eqn:Hdis.
  - split.
    + intros (c & i & H). by apply elem_of_nil in H.
    + intros Ha. apply isButtonDisabled_false in Ha; congruence.
  - rewrite handleSendOrStop_sends by done.
    apply isButtonDisabled_false in Hdis; [|done].
    split; [done | by intros [? _]].
Qed.

(** C2: while nothing is being sent, submit is enabled exactly when
    the trimmed text is not empty or an image is attached, the session
    is ready and no session is being restored: [isButtonDisabled] is
    false exactly then, a click on the button sends exactly then, the
    keyboard shortcut sends only then, and [handleSendOrStop] does
    nothing at all with blank text and no image. *)
Theorem submit_enabled (p : Props) :
  isSending p = false ->
  (isButtonDisabled p = false <->
   (JsString.trim (inputValue p) <> [] \/ attachedImages p <> []) /\
   isSessionReady p = true /\ isRestoringSession p = false) /\
  (sends (clickSendButton p) <-> submit_allowed p) /\
  (forall e, sends (handleKeyDown p e) -> submit_allowed p) /\
  (JsString.trim (inputValue p) = [] -> attachedImages p = [] ->
   handleSendOrStop p = []).
Proof.
  intros Hs. split; [by apply isButtonDisabled_false|].
  split; [by apply clickSendButton_sends|].
  split; [intros e; by apply handleKeyDown_sends|].
  by apply handleSendOrStop_empty.
Qed.

(** A typed message, ready to go. *)
Definition typed : Props :=
  {| isSending := false;
     isSessionReady := true;
     isRestoringSession := false;
     mentions := closed_hook;
     slashCommands := closed_hook;
     supportsImages := true;
     agentId := js "agent-a";
     inputValue := js "  hello ";
     attachedImages := [png_image];
     sendMessageShortcut := ShortcutEnter |}.

Lemma submit_enabled_witness :
  (isButtonDisabled typed = false <->
   (JsString.trim (inputValue typed) <> [] \/ attachedImages typed <> []) /\
   isSessionReady typed = true /\ isRestoringSession typed = false) /\
  (sends (clickSendButton typed) <-> submit_allowed typed) /\
  (forall e, sends (handleKeyDown typed e) -> submit_allowed typed) /\
  (JsString.trim (inputValue typed) = [] -> attachedImages typed = [] ->
   handleSendOrStop typed = []).
Proof. apply (submit_enabled typed). reflexivity. Defined.

Lemma sent_images_of (prompts : list ImagePromptContent) :
  sent_images (if 0 <? length prompts then Some prompts else None) = prompts.
Proof. by destruct prompts. Qed.

Lemma undefined_images (prompts : list ImagePromptContent) :
  (if 0 <? length prompts then Some prompts else None) = None
  <-> prompts = [].
Proof. by destruct prompts. Qed.

(** C3: on a submit that goes through ([handleSendOrStop] while
    nothing is being sent, with non-blank text or an image), the input
    text is set to the empty string and the attached images to the
    empty list before [onSendMessage] is called, which is the last
    call made; [onSendMessage] gets the trimmed text and the images as
    they were before the clearing: one prompt content of type "image"
    for each attached image, in order, with that image's data and MIME
    type, and [undefined] exactly when no image was attached. *)
Theorem submit_clears_before_send (p : Props) :
  isSending p = false ->
  JsString.trim (inputValue p) <> [] \/ attachedImages p <> [] ->
  exists before images,
    handleSendOrStop p =
      before ++ [OnSendMessage (JsString.trim (inputValue p)) images] /\
    sent_images images = map to_prompt (attachedImages p) /\
    map prompt_data (sent_images images) = map data (attachedImages p) /\
    map prompt_mimeType (sent_images images)
      = map mimeType (attachedImages p) /\
    Forall (fun content => prompt_type content = js "image")
      (sent_images images) /\
    (images = None <-> attachedImages p = []) /\
    ~ sends before /\
    OnInputChange [] ∈ before /\
    OnAttachedImagesChange [] ∈ before /\
    forall s,
      st_inputValue (run s before) = [] /\
      st_attachedImages (run s before) = [].
Proof.
  intros Hs Hc.
  exists [OnInputChange []; OnAttachedImagesChange [];
          SetHintText None; SetCommandText []].
  eexists. split; [by apply handleSendOrStop_content|].
  rewrite sent_images_of, undefined_images.
  split; [done|].
  split; [by rewrite map_map|].
  split; [by rewrite map_map|].
  split; [by apply Forall_forall; intros content Hin;
          apply list_elem_of_In, in_map_iff in Hin as (img & <- & _)|].
  split; [by destruct (attachedImages p)|].
  split; [intros (c & i & H); absent H|].
  split; [apply list_elem_of_here|].
  split; [apply list_elem_of_further, list_elem_of_here|].
  by intros s.
Qed.

Lemma submit_clears_before_send_witness :
  exists before images,
    handleSendOrStop typed =
      before ++ [OnSendMessage (JsString.trim (inputValue typed)) images] /\
    sent_images images = map to_prompt (attachedImages typed) /\
    map prompt_data (sent_images images) = map data (attachedImages typed) /\
    map prompt_mimeType (sent_images images)
      = map mimeType (attachedImages typed) /\
    Forall (fun content => prompt_type content = js "image")
      (sent_images images) /\
    (images = None <-> attachedImages typed = []) /\
    ~ sends before /\
    OnInputChange [] ∈ before /\
    OnAttachedImagesChange [] ∈ before /\
    forall s,
      st_inputValue (run s before) = [] /\
      st_attachedImages (run s before) = [].
Proof.
  apply (submit_clears_before_send typed).
  - reflexivity.
  - left. vm_compute. discriminate.
Defined.

(** *** The per-agent reset *)

Lemma clearImagesEffect_agent_changed old cur :
  dep_agentId old <> dep_agentId cur ->
  clearImagesEffect (Some old) cur = [OnAttachedImagesChange []].
Proof.
  intros Hne. unfold clearImagesEffect, deps_changed, JsString.eqb.
  by rewrite bool_decide_eq_false_2.
Qed.

(** C8: when [agentId] differs from the previous render's, the effect
    resets the attached images to the empty list, and it leaves the
    input text as it is: it makes no other call. *)
Theorem agent_change_clears_images (old cur : AgentEffectDeps) (s : State) :
  dep_agentId old <> dep_agentId cur ->
  clearImagesEffect (Some old) cur = [OnAttachedImagesChange []] /\
  st_attachedImages (run s (clearImagesEffect (Some old) cur)) = [] /\
  st_inputValue (run s (clearImagesEffect (Some old) cur)) = st_inputValue s.
Proof.
  intros Hne. by rewrite clearImagesEffect_agent_changed.
Qed.

Definition deps_a : AgentEffectDeps :=
  {| dep_agentId := js "agent-a"; dep_onAttachedImagesChange := 0 |}.

Definition deps_b : AgentEffectDeps :=
  {| dep_agentId := js "agent-b"; dep_onAttachedImagesChange := 0 |}.

Definition drafting : State :=
  {| input := {| text := js "draft"; images := [png_image] |};
     local := {| hintText := None; commandText := [];
                 isDraggingOver := false; dragCounter := 0 |};
     hooks := {| mentionsOpen := false; slashOpen := false |} |}.

Lemma agent_change_clears_images_witness :
  clearImagesEffect (Some deps_a) deps_b = [OnAttachedImagesChange []] /\
  st_attachedImages (run drafting (clearImagesEffect (Some deps_a) deps_b)) = [] /\
  st_inputValue (run drafting (clearImagesEffect (Some deps_a) deps_b))
    = st_inputValue drafting.
Proof.
  apply (agent_change_clears_images deps_a deps_b drafting).
  vm_compute. discriminate.
Defined.

End SubmitFacts.

(** ** Properties of the suggestion dropdowns *)

Module DropdownFacts.
Import ChatInput Samples.

(** The dropdown the keyboard acts on: the slash-command dropdown
    when it is open, the mention dropdown otherwise. *)
Definition active (p : Props) : dropdown :=
  if isOpen (slashCommands p) then SlashCommandDropdown else MentionDropdown.

Definition other (d : dropdown) : dropdown :=
  match d with
  | MentionDropdown => SlashCommandDropdown
  | SlashCommandDropdown => MentionDropdown
  end.



(** The hook calls of a trace, by the dropdown they address. *)
Definition addressed (trace : list effect) : list dropdown :=
  omap (fun e =>
          match e with
          | SlashNavigate _ | SlashSelectSuggestion _ _ | SlashClose =>
              Some SlashCommandDropdown
          | MentionsNavigate _ | MentionsSelectSuggestion _ _
          | MentionsClose => Some MentionDropdown
          | _ => None
          end) trace.

Lemma not_both_closed p :
  isOpen (slashCommands p) = true \/ isOpen (mentions p) = true ->
  negb (isOpen (slashCommands p)) && negb (isOpen (mentions p)) = false.
Proof.
  destruct (isOpen (slashCommands p)), (isOpen (mentions p)); simpl;
    intuition congruence.
Qed.

(** Enter, outside composition, and Tab. *)
Definition applies (e : KeyboardEvent) : Prop :=
  key e = js "Tab" \/ (key e = js "Enter" /\ isComposing e = false).

Lemma handleDropdownKeyPress_apply p e :
  isOpen (slashCommands p) = true \/ isOpen (mentions p) = true ->
  applies e ->
  handleDropdownKeyPress p e =
  (PreventDefault ::
     (if isOpen (slashCommands p) then
        match at_index (suggestions (slashCommands p))
                (selectedIndex (slashCommands p)) with
        | Some selectedCommand => handleSelectSlashCommand p selectedCommand
        | None => []
        end
      else
        match at_index (suggestions (mentions p))
                (selectedIndex (mentions p)) with
        | Some selectedSuggestion => selectMention p selectedSuggestion
        | None => []
        end), true).
Proof.
  intros Hopen Hkey. unfold handleDropdownKeyPress.
  rewrite (not_both_closed p Hopen).
  unfold key_is, JsString.eqb.
  destruct e as [k composing shift meta ctrl]. unfold applies in Hkey.
  simpl in *. destruct Hkey as [-> | [-> ->]]; reflexivity.
Qed.






Definition help_command : SlashCommand :=
  {| name := js "help"; hint := Some (js "topic") |}.

Definition slash_hook (open : bool) : Suggestions SlashCommand :=
  {| isOpen := open;
     suggestions := [help_command];
     selectedIndex := 0;
     selectSuggestion := fun _ command => js "/" ++ name command ++ js " " |}.

Definition note_hook (open : bool) : Suggestions NoteMetadata :=
  {| isOpen := open;
     suggestions := [{| note_path := js "notes/today.md" |}];
     selectedIndex := 0;
     selectSuggestion := fun text note => text ++ note_path note |}.

(** The user has typed "/he"; [mention_open] and [slash_open] are
    what the two hooks report. *)
Definition typing (mention_open slash_open : bool) : Props :=
  {| isSending := false;
     isSessionReady := true;
     isRestoringSession := false;
     mentions := note_hook mention_open;
     slashCommands := slash_hook slash_open;
     supportsImages := true;
     agentId := js "agent-a";
     inputValue := js "/he";
     attachedImages := [];
     sendMessageShortcut := ShortcutEnter |}.

Definition showing (mention_open slash_open : bool) : State :=
  {| input := {| text := js "/he"; images := [] |};
     local := {| hintText := None; commandText := [];
                 isDraggingOver := false; dragCounter := 0 |};
     hooks := {| mentionsOpen := mention_open; slashOpen := slash_open |} |}.

Definition press (k : string) (composing : bool) : KeyboardEvent :=
  {| key := js k;
     isComposing := composing;
     shiftKey := false;
     metaKey := false;
     ctrlKey := false |}.


(** C9, as stated, fails: nothing in the component keeps the two
    dropdowns from being open together; when both hooks report open,
    both dropdowns are rendered. *)
Lemma both_dropdowns_rendered :
  renderedDropdowns (typing true true)
    = [MentionDropdown; SlashCommandDropdown] /\
  ~ length (renderedDropdowns (typing true true)) <= 1.
Proof. split; [reflexivity|]. simpl. lia. Qed.

Lemma addressed_select_command p command :
  addressed (handleSelectSlashCommand p command) = [SlashCommandDropdown].
Proof. unfold handleSelectSlashCommand. by destruct (has_hint command). Qed.

Lemma addressed_active p e :
  addressed (fst (handleDropdownKeyPress p e)) = [] \/
  addressed (fst (handleDropdownKeyPress p e)) = [active p].
Proof.
  unfold handleDropdownKeyPress, active.
  repeat match goal with
         | |- context [if ?b then (_, _) else _] => destruct b; simpl fst
         end; try (by left);
    destruct (isOpen (slashCommands p)); try (by right);
    (destruct (at_index _ _) as [chosen|]; [right | by left]);
    [|done].
  change (addressed (PreventDefault :: handleSelectSlashCommand p chosen))
    with (addressed (handleSelectSlashCommand p chosen)).
  apply addressed_select_command.
Qed.

Definition is_open (p : Props) (d : dropdown) : bool :=
  match d with
  | MentionDropdown => isOpen (mentions p)
  | SlashCommandDropdown => isOpen (slashCommands p)
  end.

Lemma rendered_iff_open p d : d ∈ renderedDropdowns p <-> is_open p d = true.
Proof.
  unfold renderedDropdowns.
  destruct d, (isOpen (mentions p)) eqn:Hm, (isOpen (slashCommands p)) eqn:Hs;
    simpl; rewrite ?Hm, ?Hs; split; try done;
    rewrite ?elem_of_cons, ?elem_of_nil; intuition congruence.
Qed.

Lemma addressed_navigation p e :
  isOpen (slashCommands p) = true \/ isOpen (mentions p) = true ->
  key e = js "ArrowDown" \/ key e = js "ArrowUp" \/ key e = js "Escape" ->
  addressed (fst (handleDropdownKeyPress p e)) = [active p].
Proof.
  intros Hopen Hkey. unfold handleDropdownKeyPress, active.
  rewrite (not_both_closed p Hopen). unfold key_is, JsString.eqb.
  destruct Hkey as [-> | [-> | ->]];
    by destruct (isOpen (slashCommands p)).
Qed.

(** C9, amended: each of the two dropdowns is rendered exactly when
    its own hook reports it open, so both can be open together; the
    keyboard, however, acts on at most one dropdown at a time, and
    that is the slash-command dropdown whenever it is open, even if
    the mention dropdown is open too, and the mention dropdown
    otherwise. *)
Theorem keyboard_addresses_one_dropdown (p : Props) (e : KeyboardEvent) :
  (forall d, d ∈ renderedDropdowns p <-> is_open p d = true) /\
  (addressed (fst (handleDropdownKeyPress p e)) = [] \/
   addressed (fst (handleDropdownKeyPress p e)) =
     [if isOpen (slashCommands p) then SlashCommandDropdown
      else MentionDropdown]) /\
  (isOpen (slashCommands p) = true \/ isOpen (mentions p) = true ->
   key e = js "ArrowDown" \/ key e = js "ArrowUp" \/ key e = js "Escape" ->
   addressed (fst (handleDropdownKeyPress p e)) =
     [if isOpen (slashCommands p) then SlashCommandDropdown
      else MentionDropdown]).
Proof.
  split; [apply rendered_iff_open|].
  split; [apply addressed_active | apply addressed_navigation].
Qed.

Lemma keyboard_addresses_one_dropdown_witness :
  addressed (fst (handleDropdownKeyPress (typing true true) (press "ArrowDown" false)))
  = [SlashCommandDropdown].
Proof.
  apply (keyboard_addresses_one_dropdown (typing true true)
           (press "ArrowDown" false)).
  - left. reflexivity.
  - left. reflexivity.
Defined.

End DropdownFacts.

(** ** Properties of the instance labels *)

Module FloatingButtonFacts.
Import FloatingButton.

(** How often [name] occurs in [names]. *)
Definition occurrences (name : jsstring) (names : list jsstring) : nat :=
  length (filter (fun other => other = name) names).

(** The label of the [k]-th view of a name: the name itself for the
    first, the name with the number for the later ones. *)
Definition display (name : jsstring) (k : nat) : jsstring :=
  if k =? 1 then name else name ++ js " " ++ JsString.of_nat k.

Definition entry_of (v : View) : Entry :=
  {| viewId := view_viewId v; label := getDisplayName v |}.

(** The entries, each numbered by the occurrences of its label
    before it; [seen] holds the labels that came before. *)
Fixpoint numbered (seen : list jsstring) (entries : list Entry) : list Entry :=
  match entries with
  | [] => []
  | e :: rest =>
      {| viewId := viewId e;
         label := display (label e) (S (occurrences (label e) seen)) |}
        :: numbered (seen ++ [label e]) rest
  end.

Lemma occurrences_nil name : occurrences name [] = 0.
Proof. reflexivity. Qed.

Lemma occurrences_cons name other names :
  occurrences name (other :: names) =
  (if decide (other = name) then 1 else 0) + occurrences name names.
Proof.
  unfold occurrences. rewrite filter_cons. by destruct (decide (other = name)).
Qed.

Lemma occurrences_app name names1 names2 :
  occurrences name (names1 ++ names2) =
  occurrences name names1 + occurrences name names2.
Proof. unfold occurrences. by rewrite filter_app, length_app. Qed.

Lemma count_labels_from entries :
  forall (countMap : gmap (list N) nat) name,
    default 0
      (fold_left
         (fun (m : gmap (list N) nat) e =>
            <[label e := default 0 (m !! label e) + 1]> m)
         entries countMap !! name)
    = default 0 (countMap !! name) + occurrences name (map label entries).
Proof.
  induction entries as [|e rest IH]; intros countMap name; simpl.
  - rewrite occurrences_nil. lia.
  - rewrite IH, occurrences_cons.
    destruct (decide (label e = name)) as [->|Hne].
    + rewrite lookup_insert_eq. simpl. lia.
    + rewrite lookup_insert_ne by done. lia.
Qed.

Lemma count_labels_spec entries name :
  default 0 (count_labels entries !! name)
  = occurrences name (map label entries).
Proof. unfold count_labels. by rewrite count_labels_from, lookup_empty. Qed.

Lemma number_labels_numbered (countMap : gmap (list N) nat)
    (total : jsstring -> nat) :
  (forall name, default 0 (countMap !! name) = total name) ->
  forall entries seen (indexMap : gmap (list N) nat),
    (forall name, 1 < total name ->
       default 0 (indexMap !! name) = occurrences name seen) ->
    (forall name,
       occurrences name (seen ++ map label entries) <= total name) ->
    number_labels countMap indexMap entries = numbered seen entries.
Proof.
  intros Htotal.
  induction entries as [|e rest IH]; intros seen indexMap Hidx Hle; simpl;
    [done|].
  rewrite Htotal.
  destruct (Nat.ltb_spec 1 (total (label e))) as [Hdup|Hone].
  - rewrite (Hidx _ Hdup).
    replace (occurrences (label e) seen + 1)
      with (S (occurrences (label e) seen)) by lia.
    unfold display at 1. f_equal.
    apply IH.
    + intros name Hname. rewrite occurrences_app, occurrences_cons.
      rewrite occurrences_nil.
      destruct (decide (label e = name)) as [<-|Hne].
      * rewrite lookup_insert_eq. simpl. lia.
      * rewrite lookup_insert_ne by done. rewrite (Hidx _ Hname). lia.
    + intros name. rewrite <- app_assoc. apply Hle.
  - assert (Hseen : occurrences (label e) seen = 0).
    { specialize (Hle (label e)).
      rewrite occurrences_app in Hle. simpl in Hle.
      rewrite occurrences_cons in Hle.
      destruct (decide (label e = label e)); [lia|done]. }
    rewrite Hseen. unfold display at 1. simpl.
    f_equal; [by destruct e|].
    apply IH.
    + intros name Hname. rewrite occurrences_app, occurrences_cons.
      rewrite occurrences_nil.
      destruct (decide (label e = name)) as [<-|Hne]; [lia|].
      rewrite (Hidx _ Hname). lia.
    + intros name. rewrite <- app_assoc. apply Hle.
Qed.

Lemma instanceLabels_numbered views :
  instanceLabels views = numbered [] (map entry_of views).
Proof.
  unfold instanceLabels.
  apply (number_labels_numbered _
           (fun name => occurrences name (map label (map entry_of views)))).
  - intros name. apply count_labels_spec.
  - intros name _. by rewrite lookup_empty.
  - intros name. done.
Qed.

Lemma numbered_lookup entries :
  forall seen i e,
    entries !! i = Some e ->
    numbered seen entries !! i =
    Some {| viewId := viewId e;
            label := display (label e)
                       (S (occurrences (label e)
                             (seen ++ map label (take i entries)))) |}.
Proof.
  induction entries as [|e0 rest IH]; intros seen i e Hi; [done|].
  destruct i as [|i]; simpl in *.
  - injection Hi as ->. by rewrite app_nil_r.
  - rewrite (IH _ _ _ Hi). by rewrite <- app_assoc.
Qed.

Lemma numbered_length entries :
  forall seen, length (numbered seen entries) = length entries.
Proof.
  induction entries as [|e rest IH]; intros seen; simpl; [done|].
  by rewrite IH.
Qed.

Definition view (i n : string) : View :=
  {| view_viewId := js i; getDisplayName := js n |}.

Definition chat_chat_research : list View :=
  [view "view-1" "Chat"; view "view-2" "Chat"; view "view-3" "Research"].

(** C7: every view keeps its place and its [viewId]; the view that is
    the [k]-th of its display name, counting in the order of the list,
    is labelled with the name itself when [k] is 1 and with the name,
    a space and [k] otherwise.  So a name that occurs once stays as it
    is, the first of several equal names stays unsuffixed and the
    later ones read "Name 2", "Name 3", and so on; views named "Chat",
    "Chat", "Research" are labelled "Chat", "Chat 2", "Research". *)
Theorem instanceLabels_disambiguate (views : list View) :
  length (instanceLabels views) = length views /\
  (forall i v,
     views !! i = Some v ->
     let name := getDisplayName v in
     let k := S (occurrences name (map getDisplayName (take i views))) in
     instanceLabels views !! i =
     Some {| viewId := view_viewId v;
             label := if k =? 1 then name
                      else name ++ js " " ++ JsString.of_nat k |}) /\
  map label (instanceLabels chat_chat_research)
    = [js "Chat"; js "Chat 2"; js "Research"].
Proof.
  rewrite instanceLabels_numbered, numbered_length, length_map.
  split; [done|]. split; [|by vm_compute].
  intros i v Hi name k.
  rewrite (numbered_lookup _ [] i (entry_of v))
    by (by rewrite list_lookup_fmap, Hi).
  simpl. f_equal. subst name k.
  change (map label (take i (map entry_of views)))
    with (label <$> take i (entry_of <$> views)).
  rewrite <- fmap_take, <- list_fmap_compose. done.
Qed.

Lemma instanceLabels_disambiguate_witness :
  instanceLabels chat_chat_research !! 1 =
  Some {| viewId := js "view-2"; label := js "Chat 2" |}.
Proof.
  destruct (instanceLabels_disambiguate chat_chat_research) as (_ & H & _).
  apply (H 1 (view "view-2" "Chat")). reflexivity.
Defined.

End FloatingButtonFacts.

(** ** More on image ingestion *)

Module IngestionFacts.
Import ChatInput Samples ImageFacts.

(** *** Paste and drop *)

(** An item the paste handler takes up: of a whitelisted type, and with
    a file. *)
Definition relevant (item : DataTransferItem) : Prop :=
  is_supported_image_type (item_type item) = true /\ is_Some (getAsFile item).

#[local] Instance relevant_dec item : Decision (relevant item).
Proof. unfold relevant. apply _. Defined.

Lemma clipboard_image_files_relevant items :
  clipboard_image_files (filter relevant items) = clipboard_image_files items.
Proof.
  unfold clipboard_image_files.
  induction items as [|item items IH]; [done|].
  rewrite filter_cons. destruct (decide (relevant item)) as [Hr|Hn]; csimpl.
  - by rewrite IH.
  - rewrite IH.
    destruct (is_supported_image_type (item_type item)) eqn:Hty; [|done].
    destruct (getAsFile item) as [file|] eqn:Hf; [|done].
    destruct Hn. split; [done|]. by rewrite Hf.
Qed.

Lemma clipboard_image_files_nil items :
  filter relevant items = [] -> clipboard_image_files items = [].
Proof. intros H. by rewrite <- clipboard_image_files_relevant, H. Qed.

(** X1: a paste is handled for its whitelisted items that carry a file
    and for nothing else: the other items change nothing, and when no
    item is of that kind the handler does nothing at all (no
    [preventDefault], no notice), whether or not the agent supports
    images. *)
Theorem handlePaste_relevant_items randomUUID (p : Props) (items : list DataTransferItem) :
  handlePaste randomUUID p {| clipboard_items := Some items |} =
  handlePaste randomUUID p {| clipboard_items := Some (filter relevant items) |}
  /\
  (filter relevant items = [] ->
   handlePaste randomUUID p {| clipboard_items := Some items |} = []).
Proof.
  split.
  - unfold handlePaste. simpl. by rewrite clipboard_image_files_relevant.
  - intros H. unfold handlePaste. simpl.
    by rewrite (clipboard_image_files_nil _ H).
Qed.

Definition text_item : DataTransferItem :=
  {| item_type := js "text/plain"; getAsFile := None |}.

Lemma handlePaste_relevant_items_witness :
  handlePaste uuid idle {| clipboard_items := Some [text_item] |} = [].
Proof.
  apply (handlePaste_relevant_items uuid idle [text_item]). reflexivity.
Defined.

Lemma clipboard_image_files_of files :
  clipboard_image_files (map file_item files) = dropped_image_files files.
Proof.
  unfold clipboard_image_files, dropped_image_files.
  induction files as [|file files IH]; [done|].
  rewrite filter_cons. csimpl.
  change (item_type (file_item file)) with (type file).
  change (getAsFile (file_item file)) with (Some file).
  case_decide as Hty.
  - by rewrite Hty, IH.
  - apply not_true_is_false in Hty. by rewrite Hty.
Qed.

(** X2: a drop does what a paste of the same files does, after
    resetting the drag counter and the drag highlight; the reset
    happens whatever is dropped. *)
Theorem handleDrop_as_paste randomUUID (p : Props) (files : list File) :
  handleDrop randomUUID p (drop_of files) =
  SetDragCounter 0 :: SetIsDraggingOver false
    :: handlePaste randomUUID p (paste_of files).
Proof.
  unfold handleDrop, handlePaste. simpl. do 2 f_equal.
  rewrite clipboard_image_files_of.
  destruct files as [|file files]; [done|]. reflexivity.
Qed.

(** *** The batch loop *)

Lemma image_changes_app t1 t2 :
  image_changes (t1 ++ t2) = image_changes t1 ++ image_changes t2.
Proof.
  unfold image_changes. induction t1 as [|e t1 IH]; [done|].
  csimpl. destruct e; csimpl; by rewrite ?IH.
Qed.

Lemma accepted_spec file :
  accepted file = true <->
  (size file <= MAX_IMAGE_SIZE_BYTES)%Z /\ is_Some (fileToBase64 file).
Proof.
  unfold accepted. rewrite andb_true_iff, negb_true_iff, Z.ltb_ge.
  by rewrite bool_decide_eq_true.
Qed.

Lemma added_cons file files :
  added (file :: files) = (if accepted file then 1 else 0) + added files.
Proof. unfold added. simpl. by destruct (accepted file). Qed.

(** The image the loop makes of an accepted file, the [k]-th of its
    batch. *)
Definition image_of (randomUUID : nat -> jsstring) (k : nat) (file : File)
    (base64 : option jsstring) : AttachedImage :=
  {| id := randomUUID k;
     data := base64;
     mimeType := type file;
     sourceSize := size file |}.

Lemma processImageFiles_from_provenance randomUUID attached files :
  forall addedCount images,
    images ∈ image_changes
               (processImageFiles_from randomUUID attached addedCount files) ->
    exists k file base64,
      file ∈ files /\ (size file <= MAX_IMAGE_SIZE_BYTES)%Z /\
      fileToBase64 file = Some base64 /\
      addedCount <= k < addedCount + added files /\
      images = attached ++ [image_of randomUUID k file base64].
Proof.
  induction files as [|file rest IH]; intros addedCount images.
  - intros H. by apply elem_of_nil in H.
  - rewrite processImageFiles_from_cons, added_cons. unfold accepted at 1.
    destruct (MAX_IMAGE_COUNT <=? length attached + addedCount).
    { intros H. by apply elem_of_nil in H. }
    destruct (Z.ltb_spec MAX_IMAGE_SIZE_BYTES (size file)) as [Hbig|Hfit].
    { intros H. apply (IH addedCount) in H
        as (k & f & b & Hin & Hsz & Hb & Hk & ->).
      exists k, f, b. repeat split; try done; try (simpl; lia).
      by apply list_elem_of_further. }
    destruct (fileToBase64 file) as [base64|] eqn:Hb64.
    + rewrite bool_decide_eq_true_2 by done.
      rewrite image_changes_app. intros H.
      apply elem_of_app in H as [H|H].
      * apply elem_of_image_changes, addImage_change in H as [-> _].
        exists addedCount, file, base64. repeat split; try done; try (simpl; lia).
        apply list_elem_of_here.
      * apply IH in H as (k & f & b & Hin & Hsz & Hb & Hk & ->).
        exists k, f, b. repeat split; try done; try (simpl; lia).
        by apply list_elem_of_further.
    + rewrite bool_decide_eq_false_2 by (by intros [? ?]).
      intros H. apply (IH addedCount) in H
        as (k & f & b & Hin & Hsz & Hb & Hk & ->).
      exists k, f, b. repeat split; try done; try (simpl; lia).
      by apply list_elem_of_further.
Qed.

(** X3: every list a batch hands to [onAttachedImagesChange] is the
    list the batch started from, followed by exactly one image; that
    image carries the MIME type, the base64 payload and the size of an
    accepted file of the batch (within the byte cap, read without
    failure) and one of the identifiers drawn in the batch.  So a batch
    never drops an attached image, and never hands over a list longer
    than the starting list by more than one. *)
Theorem processImageFiles_provenance randomUUID attached files images :
  images ∈ image_changes (processImageFiles randomUUID attached files) ->
  exists k file base64,
    file ∈ files /\ (size file <= MAX_IMAGE_SIZE_BYTES)%Z /\
    fileToBase64 file = Some base64 /\ k < added files /\
    images = attached ++ [image_of randomUUID k file base64].
Proof.
  intros H. apply processImageFiles_from_provenance in H
    as (k & file & base64 & Hin & Hsz & Hb & Hk & ->).
  exists k, file, base64. repeat split; try done. lia.
Qed.

Lemma processImageFiles_provenance_witness :
  exists k file base64,
    file ∈ [png_2mb; jpeg_7mb] /\ (size file <= MAX_IMAGE_SIZE_BYTES)%Z /\
    fileToBase64 file = Some base64 /\ k < added [png_2mb; jpeg_7mb] /\
    [png_image] = [] ++ [image_of uuid k file base64].
Proof.
  apply (processImageFiles_provenance uuid [] [png_2mb; jpeg_7mb] [png_image]).
  apply list_elem_of_here.
Defined.

Lemma processImageFiles_from_count randomUUID attached files :
  forall addedCount,
    length (image_changes
              (processImageFiles_from randomUUID attached addedCount files))
    = Nat.min (added files) (MAX_IMAGE_COUNT - (length attached + addedCount)).
Proof.
  induction files as [|file rest IH]; intros addedCount.
  - by rewrite Nat.min_0_l.
  - rewrite processImageFiles_from_cons, added_cons. unfold accepted at 1.
    destruct (Nat.leb_spec MAX_IMAGE_COUNT (length attached + addedCount))
      as [Hcap|Hroom].
    { simpl. lia. }
    destruct (Z.ltb_spec MAX_IMAGE_SIZE_BYTES (size file)) as [Hbig|Hfit].
    { simpl. apply IH. }
    destruct (fileToBase64 file) as [base64|] eqn:Hb64.
    + rewrite bool_decide_eq_true_2 by done.
      rewrite addImage_below by lia.
      rewrite image_changes_app, length_app, IH.
      change (length (image_changes [_])) with 1. simpl (negb false && true).
      cbv iota. lia.
    + rewrite bool_decide_eq_false_2 by (by intros [? ?]). simpl. apply IH.
Qed.

(** X4: a batch calls [onAttachedImagesChange] once for each accepted
    file until the list it started from, counted with the calls made so
    far, reaches [MAX_IMAGE_COUNT]: the number of calls is the smaller
    of the number of accepted files and the room left, none when the
    list is already full. *)
Theorem processImageFiles_count randomUUID attached files :
  length (image_changes (processImageFiles randomUUID attached files))
  = Nat.min (added files) (MAX_IMAGE_COUNT - length attached).
Proof.
  unfold processImageFiles. rewrite processImageFiles_from_count.
  by rewrite Nat.add_0_r.
Qed.

Lemma notice_max_images_distinct :
  notice_max_images <> notice_too_large /\ notice_max_images <> notice_failed.
Proof. split; by vm_compute. Qed.

Lemma processImageFiles_from_stops randomUUID attached files :
  forall addedCount before after,
    processImageFiles_from randomUUID attached addedCount files
      = before ++ NewNotice notice_max_images :: after ->
    after = [].
Proof.
  destruct notice_max_images_distinct as [Hlarge Hfailed].
  induction files as [|file rest IH]; intros addedCount before after.
  - intros H. by destruct before.
  - rewrite processImageFiles_from_cons.
    destruct (MAX_IMAGE_COUNT <=? length attached + addedCount).
    { intros H. destruct before as [|e before]; [by injection H|].
      injection H as _ H. by destruct before. }
    destruct (Z.ltb_spec MAX_IMAGE_SIZE_BYTES (size file)) as [Hbig|Hfit].
    { intros H. destruct before as [|e before].
      - injection H as H _. by destruct Hlarge.
      - injection H as _ H. by apply IH in H. }
    destruct (fileToBase64 file) as [base64|].
    + unfold addImage. destruct (MAX_IMAGE_COUNT <=? length attached).
      * apply IH.
      * intros H. destruct before as [|e before]; [discriminate|].
        injection H as _ H. by apply IH in H.
    + intros H. destruct before as [|e before]; [discriminate|].
      injection H as _ H. destruct before as [|e' before].
      * injection H as H _. by destruct Hfailed.
      * injection H as _ H. by apply IH in H.
Qed.

(** X5: the image-count notice ends the batch: nothing follows it, not
    even a notice for a later file, and a batch emits it at most
    once. *)
Theorem count_notice_is_last randomUUID attached files before after :
  processImageFiles randomUUID attached files
    = before ++ NewNotice notice_max_images :: after ->
  after = [] /\ NewNotice notice_max_images ∉ before.
Proof.
  intros H. split; [by apply processImageFiles_from_stops in H|].
  intros Hin. apply list_elem_of_split in Hin as (b1 & b2 & ->).
  rewrite <- app_assoc in H. simpl in H.
  apply processImageFiles_from_stops in H. by destruct b2.
Qed.

Lemma count_notice_is_last_witness :
  @nil effect = [] /\
  NewNotice notice_max_images
    ∉ [NewNotice notice_too_large;
       OnAttachedImagesChange (repeat png_image 9 ++ [png_image])].
Proof.
  apply (count_notice_is_last uuid (repeat png_image 9)
           [jpeg_7mb; png_2mb; png_2mb; jpeg_7mb]).
  reflexivity.
Defined.

(** X6: a file within the byte cap that cannot be read, reached before
    the image count stops the batch, is answered by one logged error
    and one "failed to attach" notice and is not attached; the loop
    goes on with the files after it, with the count of added images
    unchanged. *)
Theorem unreadable_file_skipped randomUUID attached before file after :
  (size file <= MAX_IMAGE_SIZE_BYTES)%Z ->
  readAsDataURL file = None ->
  length attached + added before < MAX_IMAGE_COUNT ->
  processImageFiles randomUUID attached (before ++ file :: after) =
    processImageFiles randomUUID attached before
    ++ ConsoleError :: NewNotice notice_failed
    :: processImageFiles_from randomUUID attached (added before) after.
Proof.
  intros Hfit Hread Hroom. unfold processImageFiles.
  rewrite processImageFiles_from_app by (simpl; lia).
  rewrite processImageFiles_from_cons. simpl (0 + _).
  destruct (Nat.leb_spec MAX_IMAGE_COUNT (length attached + added before));
    [exfalso; lia|].
  destruct (Z.ltb_spec MAX_IMAGE_SIZE_BYTES (size file)); [lia|].
  unfold fileToBase64. by rewrite Hread.
Qed.

Definition broken_png : File :=
  {| size := 1024; type := js "image/png"; readAsDataURL := None |}.

Lemma unreadable_file_skipped_witness :
  processImageFiles uuid [] ([png_2mb] ++ broken_png :: [png_2mb]) =
    processImageFiles uuid [] [png_2mb]
    ++ ConsoleError :: NewNotice notice_failed
    :: processImageFiles_from uuid [] (added [png_2mb]) [png_2mb].
Proof.
  apply (unreadable_file_skipped uuid [] [png_2mb] broken_png [png_2mb]).
  - vm_compute. discriminate.
  - reflexivity.
  - vm_compute. lia.
Defined.

(** *** Adding and removing one image *)

Lemma filter_other_ids (attached : list AttachedImage) id0 :
  (forall img, img ∈ attached -> id img <> id0) ->
  filter (fun img => id img <> id0) attached = attached.
Proof.
  induction attached as [|img attached IH]; intros Hfresh; [done|].
  rewrite filter_cons_True by (apply Hfresh, list_elem_of_here).
  rewrite IH; [done|]. intros img' Hin. by apply Hfresh, list_elem_of_further.
Qed.

(** X7: removing an identifier that no attached image carries hands
    back the list as it is; and attaching an image with such an
    identifier to a list that is not full, then removing that
    identifier from the result, hands back the list attaching started
    from. *)
Theorem add_then_remove (attached : list AttachedImage) (image : AttachedImage) :
  (forall img, img ∈ attached -> id img <> id image) ->
  length attached < MAX_IMAGE_COUNT ->
  removeImage attached (id image) = [OnAttachedImagesChange attached] /\
  addImage attached image = [OnAttachedImagesChange (attached ++ [image])] /\
  removeImage (attached ++ [image]) (id image)
    = [OnAttachedImagesChange attached].
Proof.
  intros Hfresh Hroom. unfold removeImage.
  rewrite filter_app, (filter_other_ids _ _ Hfresh).
  rewrite filter_cons_False by (by intros H; apply H).
  rewrite filter_nil, app_nil_r.
  split; [done|]. split; [by apply addImage_below | done].
Qed.

Lemma add_then_remove_witness :
  removeImage [png_image] (id (png_image_with (uuid 1)))
    = [OnAttachedImagesChange [png_image]] /\
  addImage [png_image] (png_image_with (uuid 1))
    = [OnAttachedImagesChange ([png_image] ++ [png_image_with (uuid 1)])] /\
  removeImage ([png_image] ++ [png_image_with (uuid 1)])
      (id (png_image_with (uuid 1)))
    = [OnAttachedImagesChange [png_image]].
Proof.
  apply (add_then_remove [png_image] (png_image_with (uuid 1))).
  - intros img Hin. apply list_elem_of_singleton in Hin. subst img.
    vm_compute. discriminate.
  - vm_compute. lia.
Defined.

(** *** Reading a file *)

Lemma split_comma_plain s : 44%N ∉ s -> JsString.split_comma s = [s].
Proof.
  induction s as [|c s IH]; intros Hs; [done|]. simpl.
  apply not_elem_of_cons in Hs as [Hc Hs].
  destruct (N.eqb_spec c 44) as [->|_]; [done|]. by rewrite IH.
Qed.

Lemma split_comma_at header rest :
  44%N ∉ header ->
  JsString.split_comma (header ++ 44%N :: rest)
    = header :: JsString.split_comma rest.
Proof.
  induction header as [|c header IH]; intros Hh; [done|]. simpl.
  apply not_elem_of_cons in Hh as [Hc Hh].
  destruct (N.eqb_spec c 44) as [->|_]; [done|]. by rewrite IH.
Qed.

(** X8: when the reader's result is a header, a comma, a payload and
    then either nothing or a further comma with anything after it, the
    header and the payload holding no comma, [fileToBase64] resolves to
    the payload alone: what precedes the first comma and what follows
    the second are dropped. *)
Theorem fileToBase64_payload (file : File) header payload tail :
  readAsDataURL file = Some (header ++ 44%N :: payload ++ tail) ->
  44%N ∉ header -> 44%N ∉ payload ->
  tail = [] \/ head tail = Some 44%N ->
  fileToBase64 file = Some (Some payload).
Proof.
  unfold fileToBase64. intros -> Hh Hp Htail.
  rewrite split_comma_at by done. f_equal. simpl.
  destruct Htail as [->|Htail].
  - by rewrite app_nil_r, split_comma_plain.
  - destruct tail as [|c tail]; [done|]. injection Htail as ->.
    by rewrite split_comma_at.
Qed.

Lemma fileToBase64_payload_witness :
  fileToBase64 png_2mb = Some (Some (js "iVBORw0KGgo=")).
Proof.
  apply (fileToBase64_payload png_2mb (js "data:image/png;base64")
           (js "iVBORw0KGgo=") []).
  - reflexivity.
  - apply (bool_decide_unpack _). vm_compute. exact I.
  - apply (bool_decide_unpack _). vm_compute. exact I.
  - by left.
Defined.

(** X9: a reader result that holds no comma makes [fileToBase64]
    resolve to [undefined], so that the image handed to [addImage]
    carries no data. *)
Theorem fileToBase64_no_comma (file : File) result :
  readAsDataURL file = Some result -> 44%N ∉ result ->
  fileToBase64 file = Some None.
Proof.
  unfold fileToBase64. intros -> Hr. by rewrite split_comma_plain.
Qed.

Lemma fileToBase64_no_comma_witness :
  fileToBase64 {| size := 1; type := js "image/png";
                  readAsDataURL := Some (js "blob") |} = Some None.
Proof.
  eapply fileToBase64_no_comma; [reflexivity|].
  apply (bool_decide_unpack _). vm_compute. exact I.
Defined.

(** *** What the owner holds after a batch *)

Lemma last_cons_default {A} (x : A) l : last (x :: l) = Some (default x (last l)).
Proof.
  revert x. induction l as [|y l IH]; intros x; [done|].
  change (last (x :: y :: l)) with (last (y :: l)). by rewrite IH.
Qed.

Lemma run_images trace :
  forall s,
    st_attachedImages (run s trace)
    = default (st_attachedImages s) (last (image_changes trace)).
Proof.
  induction trace as [|e trace IH]; intros s; [done|].
  change (run s (e :: trace)) with (run (step s e) trace). rewrite IH.
  destruct e as [| | |imgs| | | | | | | | | | | | | |]; try done.
  change (image_changes (OnAttachedImagesChange imgs :: trace))
    with (imgs :: image_changes trace).
  by rewrite last_cons_default.
Qed.

(** X28: an owner that stores what [onAttachedImagesChange] hands it
    holds, after a batch started from its list, either that list
    unchanged (no file was attached) or that list with one image more,
    whatever the number of files the batch accepted: every call hands
    over the list the batch started from with one image, not the list
    built up so far. *)
Theorem batch_grows_by_one (randomUUID : nat -> jsstring) (s : State)
    (files : list File) :
  let attached := st_attachedImages s in
  let trace := processImageFiles randomUUID attached files in
  (image_changes trace = [] -> st_attachedImages (run s trace) = attached) /\
  (image_changes trace <> [] ->
   exists k file base64,
     file ∈ files /\ fileToBase64 file = Some base64 /\
     st_attachedImages (run s trace)
       = attached ++ [image_of randomUUID k file base64]).
Proof.
  intros attached trace. rewrite run_images. split.
  - by intros ->.
  - intros Hne.
    destruct (last (image_changes trace)) as [images|] eqn:Hlast.
    + apply last_Some_elem_of in Hlast.
      apply processImageFiles_from_provenance in Hlast
        as (k & file & base64 & Hin & _ & Hb & _ & ->).
      by exists k, file, base64.
    + by apply last_None in Hlast.
Qed.

End IngestionFacts.

(** ** The keyboard *)

Module KeyboardFacts.
Import ChatInput Samples SubmitFacts DropdownFacts.

(** The key combination the settings name for sending is held. *)
Definition shortcut_pressed (p : Props) (e : KeyboardEvent) : bool :=
  match sendMessageShortcut p with
  | ShortcutEnter => negb (shiftKey e)
  | ShortcutModEnter => metaKey e || ctrlKey e
  end.

Definition dropdowns_closed (p : Props) : Prop :=
  isOpen (slashCommands p) = false /\ isOpen (mentions p) = false.

Definition dropdown_open (p : Props) : Prop :=
  isOpen (slashCommands p) = true \/ isOpen (mentions p) = true.

Lemma closed_or_open p : dropdowns_closed p \/ dropdown_open p.
Proof.
  unfold dropdowns_closed, dropdown_open.
  destruct (isOpen (slashCommands p)), (isOpen (mentions p)); intuition.
Qed.

Lemma key_is_true e k : key_is e k = true <-> key e = js k.
Proof. unfold key_is, JsString.eqb. apply bool_decide_eq_true. Qed.

Lemma key_is_false e k : key_is e k = false <-> key e <> js k.
Proof. unfold key_is, JsString.eqb. apply bool_decide_eq_false. Qed.

Lemma handleDropdownKeyPress_closed p e :
  dropdowns_closed p -> handleDropdownKeyPress p e = ([], false).
Proof.
  intros [Hs Hm]. unfold handleDropdownKeyPress. by rewrite Hs, Hm.
Qed.

Lemma handleKeyDown_closed p e :
  dropdowns_closed p ->
  handleKeyDown p e =
  if key_is e "Enter" && negb (isComposing e) then
    if shortcut_pressed p e then
      PreventDefault ::
      (if negb (isButtonDisabled p) && negb (isSending p)
       then handleSendOrStop p else [])
    else []
  else [].
Proof.
  intros Hc. unfold handleKeyDown.
  by rewrite (handleDropdownKeyPress_closed p e Hc).
Qed.

(** While a dropdown is open, a key the dropdown handler does not take
    is not Enter outside composition, so nothing follows it. *)
Lemma handleKeyDown_open p e :
  dropdown_open p ->
  handleKeyDown p e = fst (handleDropdownKeyPress p e).
Proof.
  intros Hopen. unfold handleKeyDown, handleDropdownKeyPress.
  rewrite (not_both_closed p Hopen).
  destruct (key_is e "ArrowDown"); [done|].
  destruct (key_is e "ArrowUp"); [done|].
  destruct (key_is e "Enter") eqn:HE, (key_is e "Tab") eqn:HT,
    (isComposing e) eqn:HC; simpl; rewrite ?HE, ?HC; try done;
    by destruct (key_is e "Escape").
Qed.

Lemma handleDropdownKeyPress_no_stop p e :
  OnStopGeneration ∉ fst (handleDropdownKeyPress p e).
Proof.
  intros H. unfold handleDropdownKeyPress in H.
  repeat match type of H with
         | context [if ?b then (_, _) else _] => destruct b; simpl in H
         end;
    unfold handleSelectSlashCommand, selectMention, setTextAndFocus in H;
    absent H.
Qed.

(** X10: a key press sends exactly when nothing is being sent, both
    dropdowns are closed, the key is Enter outside input-method
    composition with the configured modifier state, and submit is
    allowed. *)
Theorem keyboard_sends_iff (p : Props) (e : KeyboardEvent) :
  sends (handleKeyDown p e) <->
  isSending p = false /\ dropdowns_closed p /\
  key e = js "Enter" /\ isComposing e = false /\
  shortcut_pressed p e = true /\ submit_allowed p.
Proof.
  destruct (closed_or_open p) as [Hclosed|Hopen].
  - rewrite (handleKeyDown_closed p e Hclosed).
    fold (shortcut_pressed p e).
    destruct (key_is e "Enter") eqn:HE; simpl.
    2:{ apply key_is_false in HE. split.
        - intros (c & i & H). by apply elem_of_nil in H.
        - intros (_ & _ & HK & _). done. }
    apply key_is_true in HE.
    destruct (isComposing e) eqn:HC; simpl.
    { split.
      - intros (c & i & H). by apply elem_of_nil in H.
      - intros (_ & _ & _ & ? & _). done. }
    destruct (shortcut_pressed p e) eqn:HP.
    2:{ split.
        - intros (c & i & H). by apply elem_of_nil in H.
        - intros (_ & _ & _ & _ & ? & _). done. }
    destruct (isSending p) eqn:HS.
    { rewrite andb_false_r. split.
      - intros (c & i & H). absent H.
      - intros (? & _). done. }
    rewrite andb_true_r.
    destruct (isButtonDisabled p) eqn:HD; simpl.
    + split.
      * intros (c & i & H). absent H.
      * intros (_ & _ & _ & _ & _ & Ha).
        apply isButtonDisabled_false in Ha; congruence.
    + apply isButtonDisabled_false in HD; [|done]. split; [done|].
      intros _. destruct HD as [Hc _].
      destruct (proj2 (handleSendOrStop_sends p HS) Hc) as (c & i & Hin).
      exists c, i. by apply list_elem_of_further.
  - rewrite (handleKeyDown_open p e Hopen). split.
    + intros H. by apply handleDropdownKeyPress_no_send in H.
    + intros (_ & [Hs Hm] & _). destruct Hopen; congruence.
Qed.

Lemma step_no_state s e :
  match e with
  | PreventDefault | NewNotice _ | ConsoleError | SetTimeoutFocus _
  | OnStopGeneration | OnSendMessage _ _ | SlashNavigate _
  | MentionsNavigate _ => step s e = s
  | _ => True
  end.
Proof. by destruct s as [[] [] []], e. Qed.

(** X11: with both dropdowns closed, the send shortcut pressed while a
    message is being sent, or while submit is not allowed, is
    swallowed: its default action is prevented and nothing else
    happens; in particular the keyboard does not stop a generation. *)
Theorem shortcut_swallowed (p : Props) (e : KeyboardEvent) :
  dropdowns_closed p ->
  key e = js "Enter" -> isComposing e = false ->
  shortcut_pressed p e = true ->
  isSending p = true \/ ~ submit_allowed p ->
  handleKeyDown p e = [PreventDefault].
Proof.
  intros Hclosed HE HC HP Hno.
  rewrite (handleKeyDown_closed p e Hclosed).
  fold (shortcut_pressed p e).
  apply key_is_true in HE. rewrite HE, HC, HP. simpl.
  destruct (isSending p) eqn:HS; [by rewrite andb_false_r|].
  destruct Hno as [?|Hno]; [done|].
  destruct (isButtonDisabled p) eqn:HD; [done|].
  by apply isButtonDisabled_false in HD.
Qed.

Lemma shortcut_swallowed_witness :
  handleKeyDown idle (press "Enter" false) = [PreventDefault].
Proof.
  apply (shortcut_swallowed idle (press "Enter" false)).
  - split; reflexivity.
  - reflexivity.
  - reflexivity.
  - reflexivity.
  - right. intros [[H|H] _]; vm_compute in H; congruence.
Defined.

(** X12: no key press ever calls [onStopGeneration]. *)
Theorem keyboard_never_stops (p : Props) (e : KeyboardEvent) :
  Forall (fun call => call <> OnStopGeneration) (handleKeyDown p e).
Proof.
  apply Forall_forall. intros call Hin ->. revert Hin.
  destruct (closed_or_open p) as [Hclosed|Hopen].
  - rewrite (handleKeyDown_closed p e Hclosed). intros H.
    destruct (isSending p) eqn:HS.
    + rewrite andb_false_r in H. absent H.
    + unfold handleSendOrStop in H. rewrite HS in H. absent H.
  - rewrite (handleKeyDown_open p e Hopen).
    apply handleDropdownKeyPress_no_stop.
Qed.

(** X13: while a message is being sent the button is enabled whatever
    the input and the session flags are, and a click on it calls
    [onStopGeneration] and nothing else: text, images, hint and
    dropdowns stay as they are. *)
Theorem click_while_sending (p : Props) (s : State) :
  isSending p = true ->
  isButtonDisabled p = false /\
  clickSendButton p = [OnStopGeneration] /\
  run s (clickSendButton p) = s.
Proof.
  intros HS. unfold clickSendButton, isButtonDisabled, handleSendOrStop.
  rewrite HS. simpl. repeat split.
  apply (step_no_state s OnStopGeneration).
Qed.

(** A generation is running; the input is blank and the session flags
    are off. *)
Definition generating : Props :=
  {| isSending := true;
     isSessionReady := false;
     isRestoringSession := true;
     mentions := closed_hook;
     slashCommands := closed_hook;
     supportsImages := true;
     agentId := js "agent-a";
     inputValue := [];
     attachedImages := [];
     sendMessageShortcut := ShortcutEnter |}.

Lemma click_while_sending_witness :
  isButtonDisabled generating = false /\
  clickSendButton generating = [OnStopGeneration] /\
  run drafting (clickSendButton generating) = drafting.
Proof. apply (click_while_sending generating drafting). reflexivity. Defined.

(** The keys the dropdown handler knows. *)
Definition dropdown_keys : list jsstring :=
  [js "ArrowDown"; js "ArrowUp"; js "Enter"; js "Tab"; js "Escape"].

(** The key press is not for the component: with a dropdown open, it
    is Enter during composition or a key the dropdown handler does not
    know; with both closed, it is not Enter, or composition is in
    progress, or the configured modifier state is not held. *)
Definition left_to_default (p : Props) (e : KeyboardEvent) : Prop :=
  if isOpen (slashCommands p) || isOpen (mentions p) then
    (key e = js "Enter" /\ isComposing e = true) \/ key e ∉ dropdown_keys
  else
    key e <> js "Enter" \/ isComposing e = true
    \/ shortcut_pressed p e = false.

Lemma handleDropdownKeyPress_handled p e :
  snd (handleDropdownKeyPress p e) = true ->
  exists rest, fst (handleDropdownKeyPress p e) = PreventDefault :: rest.
Proof.
  unfold handleDropdownKeyPress.
  repeat match goal with
         | |- context [if ?b then (_, _) else _] => destruct b; simpl
         end; try done; by eexists.
Qed.

Lemma handleDropdownKeyPress_not_handled p e :
  snd (handleDropdownKeyPress p e) = false ->
  fst (handleDropdownKeyPress p e) = [].
Proof.
  unfold handleDropdownKeyPress.
  repeat match goal with
         | |- context [if ?b then (_, _) else _] => destruct b; simpl
         end; done.
Qed.

Lemma not_dropdown_key e :
  key e ∉ dropdown_keys <->
  key_is e "ArrowDown" = false /\ key_is e "ArrowUp" = false /\
  key_is e "Enter" = false /\ key_is e "Tab" = false /\
  key_is e "Escape" = false.
Proof.
  rewrite !key_is_false. unfold dropdown_keys.
  rewrite !not_elem_of_cons. pose proof (not_elem_of_nil (key e)). tauto.
Qed.

Lemma handled_spec p e :
  snd (handleDropdownKeyPress p e) = true <->
  dropdown_open p /\
  (key e ∈ [js "ArrowDown"; js "ArrowUp"; js "Tab"; js "Escape"]
   \/ (key e = js "Enter" /\ isComposing e = false)).
Proof.
  rewrite !elem_of_cons, elem_of_nil, <- !key_is_true.
  unfold dropdown_open, handleDropdownKeyPress.
  assert (HAE : key_is e "ArrowDown" = true -> key_is e "Enter" = false).
  { rewrite key_is_true, key_is_false. by intros ->. }
  assert (HUE : key_is e "ArrowUp" = true -> key_is e "Enter" = false).
  { rewrite key_is_true, key_is_false. by intros ->. }
  assert (HTE : key_is e "Tab" = true -> key_is e "Enter" = false).
  { rewrite key_is_true, key_is_false. by intros ->. }
  assert (HXE : key_is e "Escape" = true -> key_is e "Enter" = false).
  { rewrite key_is_true, key_is_false. by intros ->. }
  destruct (isOpen (slashCommands p)), (isOpen (mentions p)),
    (key_is e "ArrowDown"), (key_is e "ArrowUp"), (key_is e "Enter"),
    (key_is e "Tab"), (key_is e "Escape"), (isComposing e); simpl;
    intuition congruence.
Qed.

(** X14: the handler's return value tells whether it took the key: it
    returns true exactly when a dropdown is open and the key is
    ArrowDown, ArrowUp, Tab, Escape, or Enter outside composition; it
    then prevents the default action first; otherwise it makes no call
    at all. *)
Theorem dropdown_handled_iff (p : Props) (e : KeyboardEvent) :
  (snd (handleDropdownKeyPress p e) = true <->
   dropdown_open p /\
   (key e ∈ [js "ArrowDown"; js "ArrowUp"; js "Tab"; js "Escape"]
    \/ (key e = js "Enter" /\ isComposing e = false))) /\
  (snd (handleDropdownKeyPress p e) = true ->
   head (fst (handleDropdownKeyPress p e)) = Some PreventDefault) /\
  (snd (handleDropdownKeyPress p e) = false ->
   fst (handleDropdownKeyPress p e) = []).
Proof.
  split; [apply handled_spec|]. split.
  - intros H. by destruct (handleDropdownKeyPress_handled p e H) as [r ->].
  - apply handleDropdownKeyPress_not_handled.
Qed.

(** X15: a key press is either left alone altogether or has its
    default action prevented, before anything else; it is left alone
    exactly when, with a dropdown open, it is Enter during composition
    or none of the dropdown keys, and when, with both dropdowns closed,
    it is not Enter, or composition is in progress, or the configured
    modifier state is not held. *)
Theorem key_left_to_default (p : Props) (e : KeyboardEvent) :
  (handleKeyDown p e = [] <-> left_to_default p e) /\
  (handleKeyDown p e <> [] ->
   head (handleKeyDown p e) = Some PreventDefault).
Proof.
  unfold left_to_default.
  destruct (closed_or_open p) as [Hclosed|Hopen].
  - rewrite (handleKeyDown_closed p e Hclosed).
    fold (shortcut_pressed p e).
    destruct Hclosed as [-> ->]. simpl.
    rewrite <- key_is_false.
    destruct (key_is e "Enter"), (isComposing e), (shortcut_pressed p e);
      simpl; (split; [intuition congruence | done]).
  - rewrite (handleKeyDown_open p e Hopen).
    replace (isOpen (slashCommands p) || isOpen (mentions p)) with true
      by (by destruct Hopen as [-> | ->]; rewrite ?orb_true_r).
    destruct (snd (handleDropdownKeyPress p e)) eqn:Hh.
    + destruct (handleDropdownKeyPress_handled p e Hh) as [r ->].
      split; [|done]. split; [done|].
      apply handled_spec in Hh as [_ Hk]. intros Hl. exfalso.
      revert Hk. rewrite !elem_of_cons, elem_of_nil.
      destruct Hl as [[-> ->]|Hl].
      * intros [[?|[?|[?|[?|[]]]]]|[_ ?]]; done.
      * unfold dropdown_keys in Hl. rewrite !not_elem_of_cons in Hl.
        tauto.
    + rewrite (handleDropdownKeyPress_not_handled p e Hh).
      split; [|done]. split; [|done]. intros _.
      destruct (decide (key e = js "Enter" /\ isComposing e = true))
        as [?|Hn]; [by left|right].
      intros Hin. apply not_true_iff_false in Hh. apply Hh.
      apply handled_spec. split; [done|].
      unfold dropdown_keys in Hin. revert Hin.
      rewrite !elem_of_cons, elem_of_nil.
      destruct (isComposing e); intuition.
Qed.

(** *** Applying with nothing highlighted *)

Definition active_index (p : Props) : Z :=
  if isOpen (slashCommands p) then selectedIndex (slashCommands p)
  else selectedIndex (mentions p).

Definition active_count (p : Props) : nat :=
  if isOpen (slashCommands p) then length (suggestions (slashCommands p))
  else length (suggestions (mentions p)).

Lemma at_index_None {A} (xs : list A) i :
  at_index xs i = None <-> (i < 0 \/ Z.of_nat (length xs) <= i)%Z.
Proof.
  unfold at_index. destruct (Z.ltb_spec i 0); [intuition|].
  rewrite lookup_ge_None. lia.
Qed.

(** X16: with a dropdown open, Enter outside composition or Tab, when
    the selection index of the active dropdown is outside its
    suggestion list, is swallowed: the default action is prevented,
    and no text is inserted, no dropdown closed and nothing sent. *)
Theorem apply_without_highlight (p : Props) (e : KeyboardEvent) (s : State) :
  dropdown_open p -> applies e ->
  (active_index p < 0 \/ Z.of_nat (active_count p) <= active_index p)%Z ->
  handleKeyDown p e = [PreventDefault] /\
  run s (handleKeyDown p e) = s.
Proof.
  intros Hopen Hkey Hout.
  rewrite (handleKeyDown_open p e Hopen).
  rewrite (handleDropdownKeyPress_apply p e Hopen Hkey). simpl fst.
  unfold active_index, active_count in Hout.
  destruct (isOpen (slashCommands p)); apply at_index_None in Hout;
    rewrite Hout;
    (split; [done | apply (step_no_state s PreventDefault)]).
Qed.

(** The user has typed "/zz": the slash-command dropdown is open and
    has nothing to offer. *)
Definition no_match : Props :=
  {| isSending := false;
     isSessionReady := true;
     isRestoringSession := false;
     mentions := closed_hook;
     slashCommands :=
       {| isOpen := true;
          suggestions := [];
          selectedIndex := 0;
          selectSuggestion := fun text _ => text |};
     supportsImages := true;
     agentId := js "agent-a";
     inputValue := js "/zz";
     attachedImages := [];
     sendMessageShortcut := ShortcutEnter |}.

Lemma apply_without_highlight_witness :
  handleKeyDown no_match (press "Enter" false) = [PreventDefault] /\
  run (showing false true) (handleKeyDown no_match (press "Enter" false))
    = showing false true.
Proof.
  apply (apply_without_highlight no_match (press "Enter" false)).
  - left. reflexivity.
  - right. split; reflexivity.
  - right. vm_compute. discriminate.
Defined.

End KeyboardFacts.

(** ** Drag feedback, hints, draft restore, send icon, textarea height *)

Module LocalFacts.
Import ChatInput ChatInputLocal Samples ImageFacts SubmitFacts.

(** *** What image ingestion leaves alone *)

(** The calls image ingestion makes. *)
Definition ingestion_effect (e : effect) : Prop :=
  match e with
  | PreventDefault | NewNotice _ | ConsoleError
  | OnAttachedImagesChange _ => True
  | _ => False
  end.

Lemma processImageFiles_from_effects randomUUID attached files :
  forall addedCount,
    Forall ingestion_effect
      (processImageFiles_from randomUUID attached addedCount files).
Proof.
  induction files as [|file rest IH]; intros addedCount; [constructor|].
  rewrite processImageFiles_from_cons.
  destruct (MAX_IMAGE_COUNT <=? _); [by repeat constructor|].
  destruct (_ <? _)%Z; [by constructor|].
  destruct (fileToBase64 file) as [base64|].
  - apply Forall_app. split; [|apply IH].
    unfold addImage. destruct (MAX_IMAGE_COUNT <=? _); by repeat constructor.
  - by repeat constructor.
Qed.

Lemma handlePaste_effects randomUUID p e :
  Forall ingestion_effect (handlePaste randomUUID p e).
Proof.
  unfold handlePaste. destruct (clipboard_items e) as [items|]; [|constructor].
  destruct (length _ =? 0); [constructor|].
  constructor; [done|].
  destruct (negb (supportsImages p)); [by repeat constructor|].
  apply processImageFiles_from_effects.
Qed.

Lemma handleDrop_effects randomUUID p e :
  exists rest,
    handleDrop randomUUID p e
      = SetDragCounter 0 :: SetIsDraggingOver false :: rest /\
    Forall ingestion_effect rest.
Proof.
  unfold handleDrop. eexists. split; [done|].
  destruct (dataTransfer_files e) as [files|]; [|constructor].
  destruct (length files =? 0); [constructor|].
  destruct (length _ =? 0); [constructor|].
  constructor; [done|].
  destruct (negb (supportsImages p)); [by repeat constructor|].
  apply processImageFiles_from_effects.
Qed.

Lemma local_step_ingestion l trace :
  Forall ingestion_effect trace -> fold_left local_step trace l = l.
Proof.
  induction 1 as [|e trace He _ IH]; [done|]. simpl.
  by destruct e.
Qed.

Lemma run_ingestion trace :
  Forall ingestion_effect trace ->
  forall s,
    st_inputValue (run s trace) = st_inputValue s /\
    local (run s trace) = local s /\ hooks (run s trace) = hooks s.
Proof.
  induction 1 as [|e trace He _ IH]; intros s; [done|].
  change (run s (e :: trace)) with (run (step s e) trace).
  destruct (IH (step s e)) as (-> & -> & ->). by destruct e.
Qed.

(** X17: pasting and dropping touch the attached images only: the
    input text and the dropdowns are as before; after a paste the hint
    and the drag feedback are as before too, and after a drop,
    whatever it carries, the drag counter is zero and the highlight is
    off. *)
Theorem ingestion_keeps_text (randomUUID : nat -> jsstring) (p : Props)
    (s : State) :
  (forall e,
     let s' := run s (handlePaste randomUUID p e) in
     st_inputValue s' = st_inputValue s /\
     local s' = local s /\ hooks s' = hooks s) /\
  (forall e,
     let s' := run s (handleDrop randomUUID p e) in
     st_inputValue s' = st_inputValue s /\ hooks s' = hooks s /\
     hintText (local s') = hintText (local s) /\
     commandText (local s') = commandText (local s) /\
     dragCounter (local s') = 0%Z /\ isDraggingOver (local s') = false).
Proof.
  split; intros e s'; subst s'.
  - apply run_ingestion, handlePaste_effects.
  - destruct (handleDrop_effects randomUUID p e) as (rest & -> & Hrest).
    change (run s (?a :: ?b :: rest)) with (run (step (step s a) b) rest).
    destruct (run_ingestion rest Hrest
                (step (step s (SetDragCounter 0)) (SetIsDraggingOver false)))
      as (-> & -> & ->).
    done.
Qed.

(** *** Drag feedback *)

Inductive drag_event :=
| DragEnter (e : DragTypes)
| DragOver (e : DragTypes)
| DragLeave
| Drop (randomUUID : nat -> jsstring) (p : Props) (e : DragEvent).

(** The calls the handler of a drag event makes on the component's
    state, [counter] being [dragCounterRef.current]. *)
Definition drag_handler (counter : Z) (ev : drag_event) : list effect :=
  match ev with
  | DragEnter e => core (handleDragEnter counter e)
  | DragOver e => core (handleDragOver e)
  | DragLeave => core (handleDragLeave counter)
  | Drop randomUUID p e => handleDrop randomUUID p e
  end.

Definition drag_step (l : LocalState) (ev : drag_event) : LocalState :=
  fold_left local_step (drag_handler (dragCounter l) ev) l.

Definition drag_run (l : LocalState) (evs : list drag_event) : LocalState :=
  fold_left drag_step evs l.

Definition is_file_enter (ev : drag_event) : bool :=
  match ev with
  | DragEnter e => drags_files e
  | _ => false
  end.

Definition is_leave (ev : drag_event) : bool :=
  match ev with
  | DragLeave => true
  | _ => false
  end.

Definition is_drop (ev : drag_event) : bool :=
  match ev with
  | Drop _ _ _ => true
  | _ => false
  end.

Definition count (f : drag_event -> bool) (evs : list drag_event) : Z :=
  Z.of_nat (length (List.filter f evs)).

Lemma drag_step_spec l ev :
  dragCounter (drag_step l ev) =
    (if is_drop ev then 0
     else dragCounter l + (if is_file_enter ev then 1 else 0)
          - (if is_leave ev then 1 else 0))%Z /\
  isDraggingOver (drag_step l ev) =
    (if is_drop ev then false
     else if is_file_enter ev
          then (if (dragCounter l + 1 =? 1)%Z then true else isDraggingOver l)
     else if is_leave ev
          then (if (dragCounter l - 1 =? 0)%Z then false else isDraggingOver l)
     else isDraggingOver l).
Proof.
  unfold drag_step.
  destruct ev as [e|e| |randomUUID p e]; cbn [drag_handler is_drop is_file_enter is_leave].
  - unfold handleDragEnter. destruct (drags_files e); simpl.
    + destruct (_ =? 1)%Z; simpl; split; [lia|done|lia|done].
    + split; [lia|done].
  - unfold handleDragOver. destruct (drags_files e); simpl; split; [lia|done|lia|done].
  - unfold handleDragLeave. destruct (_ =? 0)%Z; simpl; split; [lia|done|lia|done].
  - destruct (handleDrop_effects randomUUID p e) as (rest & -> & Hrest).
    cbn [fold_left]. by rewrite local_step_ingestion.
Qed.

Lemma drag_step_invariant l ev :
  isDraggingOver l = (1 <=? dragCounter l)%Z ->
  isDraggingOver (drag_step l ev) = (1 <=? dragCounter (drag_step l ev))%Z.
Proof.
  intros Hl. destruct (drag_step_spec l ev) as [-> ->].
  destruct ev as [e|e| |randomUUID p e];
    cbn [is_drop is_file_enter is_leave]; [| | |done];
    try destruct (drags_files e); rewrite ?Hl;
    repeat match goal with
           | |- context [(?a =? ?b)%Z] => destruct (Z.eqb_spec a b)
           | |- context [(?a <=? ?b)%Z] => destruct (Z.leb_spec a b)
           end; try done; lia.
Qed.

(** X18: the drop highlight is on exactly while the drag counter is at
    least one: if that holds before a sequence of drag-enter,
    drag-over, drag-leave and drop events, it holds after it. *)
Theorem drag_highlight_invariant (l : LocalState) (evs : list drag_event) :
  isDraggingOver l = (1 <=? dragCounter l)%Z ->
  isDraggingOver (drag_run l evs)
    = (1 <=? dragCounter (drag_run l evs))%Z.
Proof.
  revert l. induction evs as [|ev evs IH]; intros l Hl; [done|].
  apply IH. by apply drag_step_invariant.
Qed.

Definition at_rest : LocalState :=
  {| hintText := None; commandText := [];
     isDraggingOver := false; dragCounter := 0 |}.

Definition file_drag : DragTypes :=
  {| dataTransfer_types := Some [js "Files"] |}.

Definition text_drag : DragTypes :=
  {| dataTransfer_types := Some [js "text/plain"] |}.

Lemma drag_highlight_invariant_witness :
  isDraggingOver
    (drag_run at_rest [DragEnter file_drag; DragEnter file_drag; DragLeave])
  = (1 <=? dragCounter
             (drag_run at_rest
                [DragEnter file_drag; DragEnter file_drag; DragLeave]))%Z.
Proof.
  apply (drag_highlight_invariant at_rest
           [DragEnter file_drag; DragEnter file_drag; DragLeave]).
  reflexivity.
Defined.

(** X19: as long as nothing is dropped, the drag counter is its
    initial value plus the number of drag-enter events that carry
    files minus the number of all drag-leave events: a leave counts
    whatever is dragged. *)
Theorem drag_counter_balance (l : LocalState) (evs : list drag_event) :
  forallb (fun ev => negb (is_drop ev)) evs = true ->
  dragCounter (drag_run l evs)
    = (dragCounter l + count is_file_enter evs - count is_leave evs)%Z.
Proof.
  unfold count. revert l.
  induction evs as [|ev evs IH]; intros l Hevs; simpl; [lia|].
  apply andb_true_iff in Hevs as [Hev Hevs].
  change (drag_run l (ev :: evs)) with (drag_run (drag_step l ev) evs).
  rewrite (IH _ Hevs). destruct (drag_step_spec l ev) as [-> _].
  destruct (is_drop ev); [done|].
  destruct (is_file_enter ev), (is_leave ev); simpl length; lia.
Qed.

(** A drag of text passes over the input, then a drag of files
    enters: the counter is back at zero and the highlight stays off. *)
Lemma drag_counter_balance_witness :
  dragCounter
    (drag_run at_rest [DragEnter text_drag; DragLeave; DragEnter file_drag])
  = (dragCounter at_rest
     + count is_file_enter
         [DragEnter text_drag; DragLeave; DragEnter file_drag]
     - count is_leave
         [DragEnter text_drag; DragLeave; DragEnter file_drag])%Z.
Proof.
  apply (drag_counter_balance at_rest
           [DragEnter text_drag; DragLeave; DragEnter file_drag]).
  reflexivity.
Defined.

(** *** The hint of a slash command *)

Lemma truthy_spec (s : jsstring) : JsString.truthy s = true <-> s <> [].
Proof. by destruct s. Qed.

(** X20: applying a slash command that has a hint shows the hint
    behind the command text "/name "; the next change of the input
    keeps the hint exactly when the new text is the command text
    followed by the hint, and otherwise clears both the hint and the
    command text. *)
Theorem hint_lifecycle (p : Props) (command : SlashCommand) (h : jsstring)
    (l : LocalState) :
  hint command = Some h -> h <> [] ->
  let shown := fold_left local_step (handleSelectSlashCommand p command) l in
  hintText shown = Some h /\
  commandText shown = js "/" ++ name command ++ js " " /\
  forall newValue selectionStart,
    let after :=
      fold_left local_step
        (core (handleInputChange shown newValue selectionStart)) shown in
    (newValue = js "/" ++ name command ++ js " " ++ h -> after = shown) /\
    (newValue <> js "/" ++ name command ++ js " " ++ h ->
     hintText after = None /\ commandText after = []).
Proof.
  intros Hh Hne.
  assert (Hhas : has_hint command = true).
  { unfold has_hint. rewrite Hh. by apply truthy_spec. }
  unfold handleSelectSlashCommand. rewrite Hhas, Hh. cbn [app fold_left].
  set (shown := local_step _ (SetTimeoutFocus _)).
  assert (Hshown : hintText shown = Some h /\
                   commandText shown = js "/" ++ name command ++ js " ")
    by done.
  destruct Hshown as [Hhint Hcmd]. split; [done|]. split; [done|].
  intros newValue selectionStart.
  unfold handleInputChange, hint_shown. rewrite Hhint.
  rewrite (proj2 (truthy_spec h) Hne), Hcmd.
  replace ((js "/" ++ name command ++ js " ") ++ h)
    with (js "/" ++ name command ++ js " " ++ h)
    by (by rewrite <- !app_assoc).
  unfold JsString.eqb. case_bool_decide as Heq; cbn -[js].
  - split; [done|]. by intros Hn.
  - split; [by intros ?|]. by intros _.
Qed.

Lemma hint_lifecycle_witness :
  let shown :=
    fold_left local_step
      (handleSelectSlashCommand (DropdownFacts.typing false true)
         DropdownFacts.help_command) at_rest in
  hintText shown = Some (js "topic") /\
  commandText shown = js "/help " /\
  hintText
    (fold_left local_step
       (core (handleInputChange shown (js "/help x") (Some 7%Z))) shown)
    = None.
Proof.
  destruct (hint_lifecycle (DropdownFacts.typing false true)
              DropdownFacts.help_command (js "topic") at_rest)
    as (Hhint & Hcmd & Hnext).
  - reflexivity.
  - vm_compute. discriminate.
  - split; [exact Hhint|]. split; [exact Hcmd|].
    apply (Hnext (js "/help x") (Some 7%Z)).
    vm_compute. discriminate.
Defined.

(** *** Restoring a draft *)

(** X21: a restored message that is not empty is put into the input
    only when the input is blank, white space included, and is marked
    as consumed in either case, once and as the last call; over other
    text the effect changes nothing. *)
Theorem restore_only_into_blank (message inputValue : jsstring) :
  message <> [] ->
  let trace := restoreMessageEffect (Some message) inputValue in
  trace = map Core (core trace) ++ [OnRestoredMessageConsumed] /\
  (JsString.trim inputValue = [] ->
   core trace = [OnInputChange message; SetTimeoutFocus (length message)]) /\
  (JsString.trim inputValue <> [] -> core trace = []).
Proof.
  intros Hm. unfold restoreMessageEffect.
  rewrite (proj2 (truthy_spec message) Hm).
  destruct (JsString.trim inputValue) as [|c t]; cbn.
  - repeat split; done.
  - repeat split; done.
Qed.

Lemma restore_only_into_blank_witness :
  core (restoreMessageEffect (Some (js "hello")) (js "  "))
  = [OnInputChange (js "hello"); SetTimeoutFocus 5].
Proof.
  destruct (restore_only_into_blank (js "hello") (js "  ")) as (_ & H & _).
  - vm_compute. discriminate.
  - apply H. reflexivity.
Defined.

(** *** Class lists *)

Lemma classList_add_fresh token classes :
  token ∉ classes -> classList_add token classes = classes ++ [token].
Proof. intros H. unfold classList_add. by rewrite bool_decide_eq_false_2. Qed.

Lemma classList_remove_app tokens classes1 classes2 :
  classList_remove tokens (classes1 ++ classes2)
  = classList_remove tokens classes1 ++ classList_remove tokens classes2.
Proof. apply filter_app. Qed.

Lemma classList_remove_absent tokens classes c :
  c ∈ tokens -> c ∉ classList_remove tokens classes.
Proof.
  intros Hc Hin. unfold classList_remove in Hin.
  by apply list_elem_of_filter in Hin as [Hn _].
Qed.

Lemma filter_all {A} (P : A -> Prop) `{forall x, Decision (P x)} (l : list A) :
  Forall P l -> filter P l = l.
Proof.
  induction 1 as [|x l Hx _ IH]; [done|].
  by rewrite filter_cons_True, IH.
Qed.

Lemma filter_none {A} (P : A -> Prop) `{forall x, Decision (P x)} (l : list A) :
  Forall (fun x => ~ P x) l -> filter P l = [].
Proof.
  induction 1 as [|x l Hx _ IH]; [done|].
  by rewrite filter_cons_False.
Qed.

Lemma classList_remove_Forall tokens classes :
  Forall (fun c => c ∉ tokens) (classList_remove tokens classes).
Proof.
  apply Forall_forall. intros c Hc. unfold classList_remove in Hc.
  by apply list_elem_of_filter in Hc as [Hn _].
Qed.

Lemma classList_remove_idemp tokens classes :
  classList_remove tokens (classList_remove tokens classes)
  = classList_remove tokens classes.
Proof. apply filter_all, classList_remove_Forall. Qed.

Lemma classList_remove_fewer tokens1 tokens2 classes :
  tokens1 ⊆ tokens2 ->
  classList_remove tokens1 (classList_remove tokens2 classes)
  = classList_remove tokens2 classes.
Proof.
  intros Hsub. apply filter_all.
  eapply Forall_impl; [apply classList_remove_Forall|].
  intros c Hc Hin. by apply Hc, Hsub.
Qed.

(** *** The send icon *)

Definition icon_states : list jsstring :=
  [icon_sending; icon_active; icon_inactive].

Lemma updateIconColor_eq p svg :
  exists chosen,
    updateIconColor p svg = classList_remove icon_states svg ++ [chosen] /\
    chosen ∈ icon_states /\
    (isSending p = true -> chosen = icon_sending) /\
    (isSending p = false -> has_content p -> chosen = icon_active) /\
    (isSending p = false -> ~ has_content p -> chosen = icon_inactive).
Proof.
  unfold updateIconColor. fold icon_states.
  destruct (isSending p).
  - exists icon_sending.
    rewrite classList_add_fresh
      by (apply classList_remove_absent, list_elem_of_here).
    repeat split; try done. apply list_elem_of_here.
  - unfold has_content, JsString.eqb.
    destruct (JsString.trim (inputValue p)) as [|c t];
      destruct (attachedImages p) as [|i imgs]; cbn -[icon_states].
    + exists icon_inactive.
      rewrite classList_add_fresh
        by (apply classList_remove_absent; do 2 apply list_elem_of_further;
            apply list_elem_of_here).
      repeat split; try done.
      * do 2 apply list_elem_of_further. apply list_elem_of_here.
      * intros _ [?|?]; done.
    + exists icon_active.
      rewrite classList_add_fresh
        by (apply classList_remove_absent, list_elem_of_further,
              list_elem_of_here).
      repeat split; try done.
      * apply list_elem_of_further, list_elem_of_here.
      * intros _ Hn. destruct Hn. by right.
    + exists icon_active.
      rewrite classList_add_fresh
        by (apply classList_remove_absent, list_elem_of_further,
              list_elem_of_here).
      repeat split; try done.
      * apply list_elem_of_further, list_elem_of_here.
      * intros _ Hn. destruct Hn. by left.
    + exists icon_active.
      rewrite classList_add_fresh
        by (apply classList_remove_absent, list_elem_of_further,
              list_elem_of_here).
      repeat split; try done.
      * apply list_elem_of_further, list_elem_of_here.
      * intros _ Hn. destruct Hn. by left.
Qed.

(** X22: after [updateIconColor] the icon carries exactly one of the
    three state classes: the sending class while a message is being
    sent, otherwise the active class when there is text that is not
    blank or an image, and the inactive class when there is neither;
    the other classes of the icon are kept, in their order. *)
Theorem icon_has_one_state (p : Props) (svg : list jsstring) :
  exists chosen,
    filter (fun c => c ∈ icon_states) (updateIconColor p svg) = [chosen] /\
    (isSending p = true -> chosen = icon_sending) /\
    (isSending p = false -> has_content p -> chosen = icon_active) /\
    (isSending p = false -> ~ has_content p -> chosen = icon_inactive) /\
    filter (fun c => c ∉ icon_states) (updateIconColor p svg)
      = filter (fun c => c ∉ icon_states) svg.
Proof.
  destruct (updateIconColor_eq p svg) as (chosen & -> & Hin & H1 & H2 & H3).
  exists chosen. rewrite !filter_app.
  rewrite (filter_none (fun c => c ∈ icon_states)).
  2:{ eapply Forall_impl; [apply classList_remove_Forall|].
      intros c Hc. exact Hc. }
  rewrite filter_cons_True, filter_nil by done.
  rewrite filter_cons_False, filter_nil, app_nil_r by (by intros Hn).
  repeat split; try done.
  apply classList_remove_idemp.
Qed.

(** *** The height of the textarea *)

Definition textarea_states : list jsstring :=
  [textarea_auto_height; textarea_expanded].

Lemma adjustTextareaHeight_eq t scrollHeight :
  adjustTextareaHeight (Some t) scrollHeight =
  Some {| classList :=
            classList_remove textarea_states (classList t)
              ++ (if 80 <? scrollHeight then [textarea_expanded] else []);
          textarea_height :=
            if 80 <? scrollHeight
            then Some (JsString.of_nat (Nat.min scrollHeight 300) ++ js "px")
            else None |}.
Proof.
  unfold adjustTextareaHeight. fold textarea_states. cbv zeta.
  set (classes := classList_remove textarea_states (classList t)).
  rewrite (classList_add_fresh textarea_auto_height classes)
    by (apply classList_remove_absent, list_elem_of_here).
  assert (Hkeep : classList_remove [textarea_auto_height] classes = classes).
  { apply classList_remove_fewer. intros c Hc.
    apply list_elem_of_singleton in Hc as ->. apply list_elem_of_here. }
  assert (Hauto : classList_remove [textarea_auto_height]
                    [textarea_auto_height] = []) by (by vm_compute).
  assert (Hexp : classList_remove [textarea_auto_height]
                   [textarea_expanded] = [textarea_expanded])
    by (by vm_compute).
  destruct (Nat.ltb_spec 80 scrollHeight) as [Hbig|Hsmall].
  - replace (Nat.max 80 (Nat.min scrollHeight 300))
      with (Nat.min scrollHeight 300) by lia.
    destruct (Nat.ltb_spec 80 (Nat.min scrollHeight 300)) as [_|?]; [|lia].
    rewrite classList_add_fresh.
    2:{ rewrite not_elem_of_app. split.
        - apply classList_remove_absent, list_elem_of_further,
            list_elem_of_here.
        - rewrite list_elem_of_singleton. by vm_compute. }
    rewrite !classList_remove_app, Hkeep, Hauto, Hexp, app_nil_r.
    reflexivity.
  - replace (Nat.max 80 (Nat.min scrollHeight 300)) with 80 by lia.
    rewrite Nat.ltb_irrefl, classList_remove_app, Hkeep, Hauto.
    reflexivity.
Qed.

(** X23: [adjustTextareaHeight] leaves the measuring class off, puts
    the expanded class on exactly when the content is higher than 80
    pixels, then sets the height variable to the content height capped
    at 300 pixels and otherwise removes it, and keeps the other classes
    of the textarea, in their order. *)
Theorem textarea_height_bounds (t : Textarea) (scrollHeight : nat) :
  exists t',
    adjustTextareaHeight (Some t) scrollHeight = Some t' /\
    (textarea_auto_height ∉ classList t') /\
    (textarea_expanded ∈ classList t' <-> 80 < scrollHeight) /\
    textarea_height t' =
      (if 80 <? scrollHeight
       then Some (JsString.of_nat (Nat.min scrollHeight 300) ++ js "px")
       else None) /\
    filter (fun c => c ∉ textarea_states) (classList t')
      = filter (fun c => c ∉ textarea_states) (classList t).
Proof.
  eexists. split; [apply adjustTextareaHeight_eq|]. cbn [classList textarea_height].
  pose proof (classList_remove_absent textarea_states (classList t)
                textarea_auto_height (list_elem_of_here _ _)) as Hauto.
  pose proof (classList_remove_absent textarea_states (classList t)
                textarea_expanded
                (list_elem_of_further _ _ _ (list_elem_of_here _ _))) as Hexp.
  split; [|split; [|split; [done|]]].
  - rewrite not_elem_of_app. split; [done|].
    destruct (80 <? scrollHeight); [|apply not_elem_of_nil].
    rewrite list_elem_of_singleton. by vm_compute.
  - rewrite elem_of_app.
    destruct (Nat.ltb_spec 80 scrollHeight) as [Hbig|Hsmall].
    + split; [done|]. intros _. right. apply list_elem_of_here.
    + split; [|lia]. intros [?|Hin]; [done|]. by apply elem_of_nil in Hin.
  - rewrite filter_app.
    change (filter (fun c => c ∉ textarea_states)
              (classList_remove textarea_states (classList t)))
      with (classList_remove textarea_states
              (classList_remove textarea_states (classList t))).
    rewrite classList_remove_idemp.
    destruct (80 <? scrollHeight); [|by rewrite app_nil_r].
    rewrite filter_cons_False, filter_nil, app_nil_r; [done|].
    intros Hn. apply Hn, list_elem_of_further, list_elem_of_here.
Qed.

End LocalFacts.

(** ** The labels of the instance menu are told apart *)

Module LabelFacts.
Import FloatingButton FloatingButtonFacts.

Lemma of_uint_digits d :
  Forall (fun c => (48 <= c <= 57)%N) (JsString.of_uint d).
Proof. induction d; simpl; constructor; try done; lia. Qed.

Lemma of_uint_inj d1 d2 :
  JsString.of_uint d1 = JsString.of_uint d2 -> d1 = d2.
Proof.
  revert d2. induction d1 as [|d1 IH|d1 IH|d1 IH|d1 IH|d1 IH|d1 IH|d1 IH
                              |d1 IH|d1 IH|d1 IH];
    intros [|d2|d2|d2|d2|d2|d2|d2|d2|d2|d2] H; simpl in H;
    try discriminate H; try reflexivity;
    injection H as H; f_equal; by apply IH.
Qed.

Lemma of_nat_inj k1 k2 : JsString.of_nat k1 = JsString.of_nat k2 -> k1 = k2.
Proof.
  intros H. apply of_uint_inj in H.
  rewrite <- (DecimalNat.Unsigned.of_to k1), <- (DecimalNat.Unsigned.of_to k2).
  by rewrite H.
Qed.

Lemma of_nat_no_space k : 32%N ∉ JsString.of_nat k.
Proof.
  intros Hin. pose proof (of_uint_digits (Nat.to_uint k)) as Hd.
  rewrite Forall_forall in Hd. specialize (Hd _ Hin). simpl in Hd. lia.
Qed.

(** A list is split at the first occurrence of an element in one way
    only. *)
Lemma first_split_inj {A} (x : A) l1 l2 r1 r2 :
  x ∉ l1 -> x ∉ l2 -> l1 ++ x :: r1 = l2 ++ x :: r2 -> l1 = l2 /\ r1 = r2.
Proof.
  revert l2. induction l1 as [|a l1 IH]; intros [|b l2] H1 H2 H; simpl in H.
  - by injection H as ->.
  - injection H as -> _. by apply not_elem_of_cons in H2 as [? _].
  - injection H as -> _. by apply not_elem_of_cons in H1 as [? _].
  - injection H as -> H.
    apply not_elem_of_cons in H1 as [_ H1].
    apply not_elem_of_cons in H2 as [_ H2].
    destruct (IH l2 H1 H2 H) as [-> ->]. done.
Qed.

Lemma last_split_inj {A} (x : A) l1 l2 r1 r2 :
  x ∉ r1 -> x ∉ r2 -> l1 ++ x :: r1 = l2 ++ x :: r2 -> l1 = l2 /\ r1 = r2.
Proof.
  intros H1 H2 H. apply (f_equal (@rev A)) in H.
  rewrite !rev_app_distr in H. simpl in H. rewrite <- !app_assoc in H.
  simpl in H.
  apply first_split_inj in H as [Hr Hl].
  - apply (f_equal (@rev A)) in Hr, Hl. rewrite !rev_involutive in Hr, Hl.
    done.
  - intros Hin. apply H1. by apply list_elem_of_In, in_rev, list_elem_of_In.
  - intros Hin. apply H2. by apply list_elem_of_In, in_rev, list_elem_of_In.
Qed.

Lemma display_first name k : k = 1 -> display name k = name.
Proof. by intros ->. Qed.

Lemma display_later name k :
  k <> 1 -> display name k = name ++ 32%N :: JsString.of_nat k.
Proof.
  intros Hk. unfold display. by destruct (Nat.eqb_spec k 1).
Qed.

Lemma display_inj name k1 k2 : display name k1 = display name k2 -> k1 = k2.
Proof.
  destruct (decide (k1 = 1)) as [->|H1], (decide (k2 = 1)) as [->|H2];
    [done| | |].
  - rewrite (display_first name 1), display_later by done.
    intros H. apply (f_equal length) in H. rewrite length_app in H.
    simpl in H. lia.
  - rewrite (display_first name 1), display_later by done.
    intros H. apply (f_equal length) in H. rewrite length_app in H.
    simpl in H. lia.
  - rewrite !display_later by done. intros H.
    apply app_inv_head in H. injection H as H. by apply of_nat_inj.
Qed.

(** Later views of a name have more views of that name before them. *)
Lemma occurrences_take_lt (names : list jsstring) name :
  forall i j,
    i < j -> names !! i = Some name ->
    occurrences name (take i names) < occurrences name (take j names).
Proof.
  induction names as [|other names IH]; intros i j Hij Hi; [done|].
  destruct j as [|j]; [lia|]. destruct i as [|i]; simpl in Hi.
  - injection Hi as ->. simpl take. rewrite occurrences_nil, occurrences_cons.
    destruct (decide (name = name)); [lia|done].
  - simpl take. rewrite !occurrences_cons.
    specialize (IH i j ltac:(lia) Hi). lia.
Qed.

Lemma occurrences_take_inj (names : list jsstring) name i j :
  names !! i = Some name -> names !! j = Some name ->
  occurrences name (take i names) = occurrences name (take j names) ->
  i = j.
Proof.
  intros Hi Hj Heq.
  destruct (Nat.lt_trichotomy i j) as [Hlt|[?|Hlt]]; [|done|].
  - pose proof (occurrences_take_lt names name i j Hlt Hi). lia.
  - pose proof (occurrences_take_lt names name j i Hlt Hj). lia.
Qed.

(** No display name reads like another one with a number from 2 on
    appended. *)
Definition unambiguous (names : list jsstring) : Prop :=
  forall name other k,
    name ∈ names -> other ∈ names -> 2 <= k ->
    name <> other ++ js " " ++ JsString.of_nat k.

Lemma display_eq names name1 name2 k1 k2 :
  unambiguous names -> name1 ∈ names -> name2 ∈ names ->
  1 <= k1 -> 1 <= k2 ->
  display name1 k1 = display name2 k2 -> name1 = name2 /\ k1 = k2.
Proof.
  intros Hun Hn1 Hn2 Hk1 Hk2.
  destruct (decide (k1 = 1)) as [->|H1], (decide (k2 = 1)) as [->|H2].
  - by rewrite !display_first.
  - rewrite (display_first name1 1), display_later by done. intros H.
    by destruct (Hun name1 name2 k2 Hn1 Hn2 ltac:(lia)).
  - rewrite (display_first name2 1), display_later by done. intros H.
    by destruct (Hun name2 name1 k1 Hn2 Hn1 ltac:(lia)).
  - rewrite !display_later by done. intros H.
    apply last_split_inj in H as [-> H]; try apply of_nat_no_space.
    split; [done | by apply of_nat_inj].
Qed.

(** X24: when no display name reads like another display name followed
    by a space and a number from 2 on, the labels of the instance menu
    are pairwise different, so that every open instance can be told
    from the others. *)
Theorem instanceLabels_distinct (views : list View) :
  unambiguous (map getDisplayName views) ->
  NoDup (map label (instanceLabels views)).
Proof.
  intros Hun. apply NoDup_alt. intros i j l Hi Hj.
  rewrite instanceLabels_numbered in Hi, Hj.
  change (map label ?x) with (label <$> x) in Hi, Hj.
  rewrite list_lookup_fmap in Hi, Hj.
  destruct (numbered [] (map entry_of views) !! i) as [ei|] eqn:Hei;
    [|discriminate].
  destruct (numbered [] (map entry_of views) !! j) as [ej|] eqn:Hej;
    [|discriminate].
  simpl in Hi, Hj. injection Hi as Hi. injection Hj as Hj.
  assert (Hvi : is_Some (views !! i)).
  { apply lookup_lt_is_Some. apply lookup_lt_Some in Hei.
    by rewrite numbered_length, length_map in Hei. }
  assert (Hvj : is_Some (views !! j)).
  { apply lookup_lt_is_Some. apply lookup_lt_Some in Hej.
    by rewrite numbered_length, length_map in Hej. }
  destruct Hvi as [vi Hvi], Hvj as [vj Hvj].
  rewrite (numbered_lookup _ [] i (entry_of vi)) in Hei
    by (by change (map entry_of views) with (entry_of <$> views);
        rewrite list_lookup_fmap, Hvi).
  rewrite (numbered_lookup _ [] j (entry_of vj)) in Hej
    by (by change (map entry_of views) with (entry_of <$> views);
        rewrite list_lookup_fmap, Hvj).
  injection Hei as <-. injection Hej as <-. simpl in Hi, Hj.
  set (names := map getDisplayName views) in *.
  assert (Htake : forall n,
            map label (take n (map entry_of views)) = take n names).
  { intros n. subst names.
    change (map label (take n (map entry_of views)))
      with (label <$> take n (entry_of <$> views)).
    change (map getDisplayName views) with (getDisplayName <$> views).
    by rewrite <- !fmap_take, <- list_fmap_compose. }
  rewrite Htake in Hi, Hj.
  assert (Hni : names !! i = Some (getDisplayName vi)).
  { subst names. change (map getDisplayName views) with (getDisplayName <$> views).
    by rewrite list_lookup_fmap, Hvi. }
  assert (Hnj : names !! j = Some (getDisplayName vj)).
  { subst names. change (map getDisplayName views) with (getDisplayName <$> views).
    by rewrite list_lookup_fmap, Hvj. }
  rewrite <- Hj in Hi.
  apply (display_eq names) in Hi as [Hname Hk]; try lia; try done.
  - rewrite Hname in Hni, Hk.
    apply (occurrences_take_inj names (getDisplayName vj)); [done|done|lia].
  - by eapply list_elem_of_lookup_2.
  - by eapply list_elem_of_lookup_2.
Qed.

Lemma unambiguous_no_space names :
  Forall (fun name => 32%N ∉ name) names -> unambiguous names.
Proof.
  intros Hns name other k Hname _ _ Heq.
  rewrite Forall_forall in Hns. apply (Hns name Hname).
  rewrite Heq. apply elem_of_app. right. apply list_elem_of_here.
Qed.

Lemma instanceLabels_distinct_witness :
  NoDup (map label (instanceLabels chat_chat_research)).
Proof.
  apply (instanceLabels_distinct chat_chat_research).
  apply unambiguous_no_space.
  repeat constructor; apply (bool_decide_unpack _); vm_compute; exact I.
Defined.

End LabelFacts.

(** ** Chat font size: stored and printed sizes *)

Module FontSizeRoundTrip.
Import JsNumber FontSize FontSizeFacts.

Lemma clamp_idemp k : clamp (clamp k) = clamp k.
Proof. unfold clamp, CHAT_FONT_SIZE_MIN, CHAT_FONT_SIZE_MAX. lia. Qed.

Lemma parseChatFontSize_of_Z k :
  parseChatFontSize (VNumber (of_Z k)) = Some (of_Z (clamp k)).
Proof.
  rewrite (parseChatFontSize_finite (VNumber (of_Z k)) k 0) by done.
  by rewrite round_half_up_integral, Z.mul_1_r.
Qed.

(** X25: a size [parseChatFontSize] has returned parses to itself. *)
Theorem parseChatFontSize_idempotent (v : js_value) (r : JsNumber.t) :
  parseChatFontSize v = Some r ->
  parseChatFontSize (VNumber r) = Some r.
Proof.
  intros Hr.
  destruct (numericValue v) as [| |m e] eqn:Hv.
  - rewrite parseChatFontSize_not_finite in Hr by (by rewrite Hv). discriminate.
  - rewrite parseChatFontSize_not_finite in Hr by (by rewrite Hv). discriminate.
  - rewrite (parseChatFontSize_finite _ _ _ Hv) in Hr. injection Hr as <-.
    by rewrite parseChatFontSize_of_Z, clamp_idemp.
Qed.

Lemma parseChatFontSize_idempotent_witness :
  parseChatFontSize (VNumber (of_Z 24)) = Some (of_Z 24).
Proof.
  apply (parseChatFontSize_idempotent (VString (js "31"))). reflexivity.
Defined.

(** *** White space around the digits *)

Definition white (ws : jsstring) : Prop :=
  Forall (fun c => JsString.is_trimmed_char c = true) ws.

Lemma trimStart_white ws s :
  white ws -> JsString.trimStart (ws ++ s) = JsString.trimStart s.
Proof.
  induction 1 as [|c ws Hc _ IH]; [done|]. simpl. by rewrite Hc.
Qed.

Lemma trimEnd_white s ws :
  white ws -> JsString.trimEnd (s ++ ws) = JsString.trimEnd s.
Proof.
  intros Hws. unfold JsString.trimEnd. rewrite rev_app_distr.
  rewrite trimStart_white; [done|]. unfold white in *.
  rewrite Forall_forall in *. intros c Hc. apply Hws.
  by apply list_elem_of_In, in_rev, list_elem_of_In.
Qed.

Lemma trim_white_end s ws :
  white ws -> JsString.trim (s ++ ws) = JsString.trim s.
Proof.
  intros Hws. unfold JsString.trim.
  induction s as [|c s IH].
  - rewrite <- (app_nil_r ws) at 1. simpl. by rewrite trimStart_white.
  - simpl. destruct (JsString.is_trimmed_char c); [done|].
    change (c :: s ++ ws) with ((c :: s) ++ ws).
    by rewrite trimEnd_white.
Qed.

Lemma trim_white ws1 s ws2 :
  white ws1 -> white ws2 ->
  JsString.trim (ws1 ++ s ++ ws2) = JsString.trim s.
Proof.
  intros H1 H2. rewrite app_assoc, trim_white_end by done.
  unfold JsString.trim. by rewrite trimStart_white.
Qed.

Lemma parseChatFontSize_trim s1 s2 :
  JsString.trim s1 = JsString.trim s2 ->
  parseChatFontSize (VString s1) = parseChatFontSize (VString s2).
Proof.
  intros Ht. unfold parseChatFontSize.
  by rewrite !numericValue_string, Ht.
Qed.

(** X26: white space and line terminators before and after a string do
    not change what [parseChatFontSize] makes of it. *)
Theorem parseChatFontSize_padding (ws1 s ws2 : jsstring) :
  white ws1 -> white ws2 ->
  parseChatFontSize (VString (ws1 ++ s ++ ws2))
    = parseChatFontSize (VString s).
Proof.
  intros H1 H2. by apply parseChatFontSize_trim, trim_white.
Qed.

Lemma parseChatFontSize_padding_witness :
  parseChatFontSize (VString (js "  " ++ js "16" ++ [10%N]))
    = parseChatFontSize (VString (js "16")).
Proof.
  apply (parseChatFontSize_padding (js "  ") (js "16") [10%N]).
  - repeat constructor.
  - repeat constructor.
Defined.

(** *** Printed sizes *)

Lemma decimal_value_of_uint d :
  forall acc,
    fold_left (fun acc c => 10 * acc + JsString.digit_value c)%Z
      (JsString.of_uint d) (Z.of_nat acc)
    = Z.of_nat (Nat.of_uint_acc d acc).
Proof.
  induction d; intros acc; simpl; [done|..];
    rewrite <- IHd; f_equal; rewrite Nat.tail_mul_spec;
    unfold JsString.digit_value; lia.
Qed.

Lemma decimal_value_of_nat n :
  JsString.decimal_value (JsString.of_nat n) = Z.of_nat n.
Proof.
  unfold JsString.decimal_value, JsString.of_nat.
  change 0%Z with (Z.of_nat 0). rewrite decimal_value_of_uint.
  change (Nat.of_uint_acc (Nat.to_uint n) 0) with (Nat.of_uint (Nat.to_uint n)).
  by rewrite DecimalNat.Unsigned.of_to.
Qed.

Lemma of_nat_nonempty n : JsString.of_nat n <> [].
Proof.
  intros H. pose proof (decimal_value_of_nat n) as Hn. rewrite H in Hn.
  assert (n = 0) as -> by (cbn in Hn; lia). discriminate H.
Qed.

Lemma of_nat_digits n :
  Forall (fun c => (48 <= c <= 57)%N) (JsString.of_nat n).
Proof. apply LabelFacts.of_uint_digits. Qed.

Lemma trimStart_digits ds :
  Forall (fun c => (48 <= c <= 57)%N) ds -> JsString.trimStart ds = ds.
Proof.
  intros [|c r Hc _]; [done|]. apply trimStart_head. lia.
Qed.

Lemma trim_digits ds :
  Forall (fun c => (48 <= c <= 57)%N) ds -> JsString.trim ds = ds.
Proof.
  intros Hds. unfold JsString.trim, JsString.trimEnd.
  rewrite (trimStart_digits ds Hds), trimStart_digits, rev_involutive;
    [done|].
  rewrite Forall_forall in *. intros c Hc. apply Hds.
  by apply list_elem_of_In, in_rev, list_elem_of_In.
Qed.

Lemma signed_value_digits ds :
  Forall (fun c => (48 <= c <= 57)%N) ds ->
  signed_value ds = JsString.decimal_value ds.
Proof.
  intros [|c r Hc _]; [done|]. unfold signed_value.
  destruct (N.eqb_spec c 45); [lia|done].
Qed.

(** X27: the decimal digits of a natural number below the overflow
    threshold of [Number.parseInt] parse to that number, clamped into
    the range; a size within the range, printed, parses to itself. *)
Theorem parseChatFontSize_printed (n : nat) :
  (Z.of_nat n < 2 ^ 1024 - 2 ^ 970)%Z ->
  parseChatFontSize (VString (JsString.of_nat n))
    = Some (of_Z (clamp (Z.of_nat n))) /\
  ((CHAT_FONT_SIZE_MIN <= Z.of_nat n <= CHAT_FONT_SIZE_MAX)%Z ->
   parseChatFontSize (VString (JsString.of_nat n)) = Some (of_Z (Z.of_nat n))).
Proof.
  intros Hn.
  assert (Hrun : signed_digit_run (JsString.trim (JsString.of_nat n))).
  { rewrite trim_digits by apply of_nat_digits.
    exists (JsString.of_nat n).
    split; [apply of_nat_nonempty|]. split; [apply of_nat_digits | by left]. }
  assert (Hval : signed_value (JsString.trim (JsString.of_nat n)) = Z.of_nat n).
  { rewrite trim_digits by apply of_nat_digits.
    rewrite signed_value_digits by apply of_nat_digits.
    apply decimal_value_of_nat. }
  pose proof (numericValue_digit_run _ Hrun) as Hnum. rewrite Hval in Hnum.
  assert (Hfin : isFinite (round_to_double (Z.of_nat n)) = true).
  { apply round_to_double_finite. unfold Binary64.overflow_threshold. lia. }
  destruct (round_to_double (Z.of_nat n)) as [| |m e] eqn:Hr;
    try discriminate Hfin.
  rewrite (parseChatFontSize_finite _ m e Hnum).
  rewrite (round_to_double_clamp _ _ _ Hr).
  split; [done|]. intros Hrange. do 2 f_equal. unfold clamp. lia.
Qed.

Lemma parseChatFontSize_printed_witness :
  parseChatFontSize (VString (JsString.of_nat 18)) = Some (of_Z 18).
Proof.
  destruct (parseChatFontSize_printed 18) as [_ H].
  - vm_compute. reflexivity.
  - apply H. vm_compute. split; discriminate.
Defined.

End FontSizeRoundTrip.

(** ** Chat font size: order *)

Module FontSizeOrder.
Import JsNumber FontSize FontSizeFacts.

Lemma clamp_mono k1 k2 : (k1 <= k2)%Z -> (clamp k1 <= clamp k2)%Z.
Proof. unfold clamp, CHAT_FONT_SIZE_MIN, CHAT_FONT_SIZE_MAX. lia. Qed.

Lemma ltb_of_Z a b : ltb (of_Z a) (of_Z b) = (a <? b)%Z.
Proof. unfold ltb, of_Z. simpl. by rewrite !Z.mul_1_r. Qed.

(** [Math.round] keeps the order of finite Numbers. *)
Lemma round_half_up_mono m1 e1 m2 e2 :
  ltb (Finite m1 e1) (Finite m2 e2) = true ->
  (round_half_up m1 e1 <= round_half_up m2 e2)%Z.
Proof.
  unfold ltb. intros Hlt. apply Z.ltb_lt in Hlt.
  pose proof (round_half_up_nearest m1 e1) as [Hlo _].
  pose proof (round_half_up_nearest m2 e2) as [_ Hhi].
  set (k1 := round_half_up m1 e1) in *.
  set (k2 := round_half_up m2 e2) in *.
  set (e := Z.min e1 e2) in *.
  set (a1 := Z.max (- e1) 0) in *. set (b1 := Z.max e1 0) in *.
  set (a2 := Z.max (- e2) 0) in *. set (b2 := Z.max e2 0) in *.
  assert (Hs : (0 <= e + a1 + a2)%Z) by lia.
  assert (Hp : (0 < 2 ^ (e + a1 + a2))%Z) by (by apply Z.pow_pos_nonneg).
  assert (H1 : (m1 * 2 ^ (e1 - e) * 2 ^ (e + a1 + a2)
                = m1 * 2 ^ b1 * 2 ^ a2)%Z).
  { rewrite <- !Z.mul_assoc, <- !Z.pow_add_r by lia. do 2 f_equal. lia. }
  assert (H2 : (m2 * 2 ^ (e2 - e) * 2 ^ (e + a1 + a2)
                = m2 * 2 ^ b2 * 2 ^ a1)%Z).
  { rewrite <- !Z.mul_assoc, <- !Z.pow_add_r by lia. do 2 f_equal. lia. }
  assert (Hx : (m1 * 2 ^ b1 * 2 ^ a2 < m2 * 2 ^ b2 * 2 ^ a1)%Z).
  { rewrite <- H1, <- H2. by apply Z.mul_lt_mono_pos_r. }
  assert (Ha1 : (0 < 2 ^ a1)%Z) by (apply Z.pow_pos_nonneg; lia).
  assert (Ha2 : (0 < 2 ^ a2)%Z) by (apply Z.pow_pos_nonneg; lia).
  clear H1 H2 Hlt Hp Hs.
  generalize dependent (2 ^ a1)%Z. generalize dependent (2 ^ a2)%Z.
  generalize dependent (2 ^ b1)%Z. generalize dependent (2 ^ b2)%Z.
  intros B2 B1 A2 Hhi HA2 A1 Hlo Hx HA1.
  assert (Hk : ((2 * k1 - 1) * (A1 * A2) < (2 * k2 + 1) * (A1 * A2))%Z) by nia.
  apply Z.mul_lt_mono_pos_r in Hk; [lia | nia].
Qed.

(** X29: [parseChatFontSize] keeps the order of numbers: of two finite
    Numbers the smaller one is given a size that is not larger. *)
Theorem parseChatFontSize_monotone (x y rx ry : JsNumber.t) :
  ltb x y = true ->
  parseChatFontSize (VNumber x) = Some rx ->
  parseChatFontSize (VNumber y) = Some ry ->
  ltb ry rx = false.
Proof.
  intros Hlt Hx Hy.
  destruct x as [| |m1 e1]; try discriminate Hx.
  destruct y as [| |m2 e2]; try discriminate Hy.
  rewrite (parseChatFontSize_finite (VNumber (Finite m1 e1)) m1 e1) in Hx
    by done.
  rewrite (parseChatFontSize_finite (VNumber (Finite m2 e2)) m2 e2) in Hy
    by done.
  injection Hx as <-. injection Hy as <-.
  rewrite ltb_of_Z. apply Z.ltb_ge, clamp_mono.
  by apply round_half_up_mono.
Qed.

Lemma parseChatFontSize_monotone_witness :
  ltb (of_Z 16) (of_Z 15) = false.
Proof.
  apply (parseChatFontSize_monotone (Finite 29 (-1)) (of_Z 16));
    reflexivity.
Defined.

End FontSizeOrder.

(** ** The effect that clears the images *)

Module ResetFacts.
Import ChatInput Samples.

(** X30: the effect that clears the attached images makes its one call,
    [onAttachedImagesChange] with the empty list, after the first
    render and after every render in which the agent identifier or the
    identity of the callback differs from the previous render's; when
    both are the same it makes no call; the input text is as before in
    every case. *)
Theorem clearImagesEffect_runs (prev : option AgentEffectDeps)
    (cur : AgentEffectDeps) (s : State) :
  (clearImagesEffect prev cur = [] <->
   exists old, prev = Some old /\ dep_agentId old = dep_agentId cur /\
               dep_onAttachedImagesChange old = dep_onAttachedImagesChange cur)
  /\
  (clearImagesEffect prev cur <> [] <->
   clearImagesEffect prev cur = [OnAttachedImagesChange []]) /\
  st_inputValue (run s (clearImagesEffect prev cur)) = st_inputValue s.
Proof.
  unfold clearImagesEffect, deps_changed, JsString.eqb.
  destruct prev as [old|].
  - case_bool_decide as Hid;
      destruct (Nat.eqb_spec (dep_onAttachedImagesChange old)
                  (dep_onAttachedImagesChange cur)) as [Hcb|Hcb]; simpl.
    + split; [|done]. split; [by exists old | done].
    + split; [|done]. split; [done|]. intros (o & Ho & _ & H).
      by injection Ho as <-.
    + split; [|done]. split; [done|]. intros (o & Ho & H & _).
      by injection Ho as <-.
    + split; [|done]. split; [done|]. intros (o & Ho & H & _).
      by injection Ho as <-.
  - simpl. split; [|done]. split; [done|]. by intros (o & Ho & _).
Qed.

End ResetFacts.
